(** * Zone aggregation engine of [database.py]

    A shallow embedding of the SQLite-backed store of the waste-report
    application: the two tables [photos] and [zones], the write path
    [add_photo] / [update_zone] and the read-side queries.

    Conventions of the embedding.
    - A SQLite [REAL] or Python float is a finite IEEE double, given by its
      value, a rational ([Q]).  Copying and comparing are exact; arithmetic
      is the exact operation followed by rounding to the nearest double, ties
      to even, with overflow to infinity as a separate outcome.  Floats that
      are not numbers do not occur.
    - Latitudes, longitudes, severities, confidences and radii are floats.
    - [INTEGER] columns and Python ints are [Z]; an int handed to SQLite as a
      statement parameter must fit in 64 bits.  [TEXT] is [string]; [NULL]
      does not occur.
    - A table is the list of its rows in scan order (ascending rowid); rows
      are only ever appended, with a rowid chosen the way [AUTOINCREMENT] does.
    - [datetime.now()] reads an ambient clock: the clock is a function from
      the number of readings taken so far to the text it returns.
    - Every function opens a connection of its own.  A connection that has
      executed a writing statement and not yet committed holds the write lock
      of the database file, and a writing statement of another connection
      then fails with [OperationalError] (database is locked).  A connection
      that is dropped by an exception gives the lock back and loses its
      statement.
    - Python exceptions are an explicit outcome that carries the store as it
      is on disk when the exception leaves the function. *)

From Stdlib Require Import ZArith QArith Qabs Qround List String Ascii Bool Lia.
From Stdlib Require Import Sorting.Permutation Sorting.Sorted.
From Stdlib Require Import Qpower Lqa.
Import ListNotations.

Local Open Scope Z_scope.

(** ** Rows and tables *)

Definition timestamp := string.

Module Photo.
Record row := mk {
    id : Z;
    image_path : string;
    latitude : Q;
    longitude : Q;
    timestamp : string;
    waste_category : string;
    severity_score : Q;
    confidence : Q;
    is_verified : bool
  }.
End Photo.

Module Zone.
Record row := mk {
    id : Z;
    center_lat : Q;
    center_lng : Q;
    radius : Q;
    waste_level : Z;
    photo_count : Z;
    last_updated : string
  }.
End Zone.

(** The database file: both tables, and for each the [sqlite_sequence]
    counter that [AUTOINCREMENT] maintains. *)
Record database := {
  photos : list Photo.row;
  photos_seq : Z;
  zones : list Zone.row;
  zones_seq : Z
}.

(** [init_db] on a fresh file. *)
Definition init_db : database :=
  {| photos := []; photos_seq := 0; zones := []; zones_seq := 0 |}.

(** Rowid given to the next inserted row of an [AUTOINCREMENT] table: one more
    than the largest rowid that is or ever was in the table. *)
Definition next_rowid (seq : Z) (ids : list Z) : Z :=
  fold_right Z.max seq ids + 1.

(** ** Python and SQL primitives *)

(** [int(x)] on a float: truncation towards zero. *)
Definition py_int (x : Q) : Z := Z.quot (Qnum x) (Zpos (Qden x)).

Definition Qltb (x y : Q) : bool := negb (Qle_bool y x).

(** [cursor.fetchone()] on the rows selected by a [WHERE] clause: the first
    selected row in scan order, or [None]. *)
Definition fetchone {A : Type} (where_ : A -> bool) (table : list A) : option A :=
  find where_ table.

(** [ORDER BY key DESC]: rows with a larger key first; rows with equal keys
    stay in scan order. *)
Section OrderBy.
Context {A K : Type} (key : A -> K) (ltb : K -> K -> bool).

Fixpoint insert_desc (x : A) (l : list A) : list A :=
    match l with
    | [] => [x]
    | y :: l' => if ltb (key x) (key y) then y :: insert_desc x l'
                 else x :: y :: l'
    end.

Definition order_by_desc (l : list A) : list A :=
    fold_right insert_desc [] l.
End OrderBy.

(** A Python int as a statement parameter: it must fit in 64 bits. *)
Definition int64 (n : Z) : bool := (- 2 ^ 63 <=? n) && (n <? 2 ^ 63).

(** ** Doubles *)

(** Rounding to the nearest integer, halves to the even one. *)
Definition round_half_even (x : Q) : Z :=
  let f := Qfloor x in
  let r := (x - inject_Z f)%Q in
  if Qltb r (1 # 2) then f
  else if Qltb (1 # 2) r then f + 1
  else if Z.even f then f else f + 1.

Definition pow2 (e : Z) : Q := (2 ^ e)%Q.

(** The integer [k] with [2^k <= |x| < 2^(k+1)], for [x] other than 0. *)
Definition ilog2 (x : Q) : Z :=
  let k := Z.log2 (Z.abs (Qnum x)) - Z.log2 (Zpos (Qden x)) in
  if Qle_bool (pow2 k) (Qabs x) then k else k - 1.

(** The multiple of the unit in the last place of [x] that is nearest to [x],
    ties to the even multiple: 53 significant bits, and no unit below
    [2^-1074]. *)
Definition round_value (x : Q) : Q :=
  if Qeq_bool x 0 then 0%Q
  else
    let e := Z.max (ilog2 x - 52) (-1074) in
    Qred (inject_Z (round_half_even (x * pow2 (- e))) * pow2 e).

(** The double nearest to [x]; [None] is an infinity. *)
Definition round_double (x : Q) : option Q :=
  let v := round_value x in
  if Qle_bool (pow2 1024) (Qabs v) then None else Some v.

Definition fadd (a b : Q) : option Q := round_double (a + b).
Definition fsub (a b : Q) : option Q := round_double (a - b).
Definition fdiv (a b : Q) : option Q := round_double (a / b).

(** [float(n)] on an int; [None] is [OverflowError]. *)
Definition float_of_int (n : Z) : option Q := round_double (inject_Z n).

(** ** The monad of the database functions *)

Inductive exn := ZeroDivisionError | OverflowError | OperationalError.

Record world := {
  disk : database;   (* committed content of the database file *)
  ticks : nat;       (* clock readings taken so far *)
  reserved : bool    (* an open connection holds the write lock *)
}.

Inductive outcome (A : Type) :=
| Return (a : A) (w : world)
| Raise (e : exn) (w : world).
Arguments Return {A} a w.
Arguments Raise {A} e w.

Definition M (A : Type) := world -> outcome A.

Definition ret {A} (a : A) : M A := fun w => Return a w.

Definition bind {A B} (m : M A) (k : A -> M B) : M B :=
  fun w => match m w with
           | Return a w' => k a w'
           | Raise e w' => Raise e w'
           end.

Definition raise {A} (e : exn) : M A := fun w => Raise e w.

Notation "x <- m ;; k" := (bind m (fun x => k))
  (at level 61, m at next level, right associativity).
Notation "m ;;; k" := (bind m (fun _ => k))
  (at level 61, right associativity).

Definition read_disk : M database := fun w => Return (disk w) w.

Definition world_of {A} (o : outcome A) : world :=
  match o with Return _ w => w | Raise _ w => w end.

(** Binding the integer parameters of a statement. *)
Definition bind_ints (ints : list Z) : M unit :=
  if forallb int64 ints then ret tt else raise OverflowError.

(** The first writing statement of a connection: it takes the write lock, or
    fails when another connection holds it. *)
Definition begin_write : M unit :=
  fun w => if reserved w then Raise OperationalError w
           else Return tt {| disk := disk w; ticks := ticks w; reserved := true |}.

(** [conn.commit()]: the statements of the connection reach the file, which
    becomes [db], and the lock is given back. *)
Definition commit (db : database) : M unit :=
  fun w => Return tt {| disk := db; ticks := ticks w; reserved := false |}.

(** A connection that holds the lock is dropped when an exception leaves the
    function that opened it. *)
Definition dropping_connection {A} (m : M A) : M A :=
  fun w => match m w with
           | Return a w' => Return a w'
           | Raise e w' =>
               Raise e {| disk := disk w'; ticks := ticks w'; reserved := false |}
           end.

(** ** The functions of [database.py] *)

(** The double written [0.005]. *)
Definition default_radius : Q := 5764607523034235 # 1152921504606846976.

(** [ABS(a - b) < r] on doubles; an infinite difference is below no [r]. *)
Definition abs_diff_lt (a b r : Q) : bool :=
  match fsub a b with
  | Some d => Qltb (Qabs d) r
  | None => false
  end.

(** [WHERE ABS(center_lat - ?) < ? AND ABS(center_lng - ?) < ?] *)
Definition zone_where (latitude radius longitude radius' : Q) (z : Zone.row) : bool :=
  abs_diff_lt (Zone.center_lat z) latitude radius
  && abs_diff_lt (Zone.center_lng z) longitude radius'.

(** [WHERE latitude <= ? AND latitude >= ? AND longitude <= ? AND longitude >= ?] *)
Definition bounds_where (north south east west : Q) (p : Photo.row) : bool :=
  Qle_bool (Photo.latitude p) north && Qle_bool south (Photo.latitude p)
  && Qle_bool (Photo.longitude p) east && Qle_bool west (Photo.longitude p).

(** [UPDATE zones SET waste_level = ?, photo_count = ?, last_updated = ? WHERE id = ?] *)
Definition update_zones_set (new_level photo_count : Z) (ts : timestamp)
    (zone_id : Z) (table : list Zone.row) : list Zone.row :=
  map (fun z =>
         if Zone.id z =? zone_id
         then Zone.mk (Zone.id z) (Zone.center_lat z) (Zone.center_lng z)
                      (Zone.radius z) new_level photo_count ts
         else z) table.

(** [INSERT INTO zones (center_lat, center_lng, radius, waste_level,
    photo_count, last_updated) VALUES (?, ?, ?, ?, ?, ?)] *)
Definition insert_into_zones (center_lat center_lng radius : Q)
    (waste_level photo_count : Z) (ts : timestamp) (db : database) : database :=
  let rowid := next_rowid (zones_seq db) (map Zone.id (zones db)) in
  {| photos := photos db;
     photos_seq := photos_seq db;
     zones := zones db ++
              [Zone.mk rowid center_lat center_lng radius waste_level photo_count ts];
     zones_seq := rowid |}.

Definition with_zones (db : database) (table : list Zone.row) : database :=
  {| photos := photos db; photos_seq := photos_seq db;
     zones := table; zones_seq := zones_seq db |}.

(** [(current_level * photo_count + severity_score) / (photo_count + 1)] with
    two ints and a float: the product is exact, each int becomes a float
    where it meets one, and the sum and the quotient are rounded.  An
    infinite quotient fails at the [int] that follows. *)
Definition level_average (current_level photo_count : Z) (severity_score : Q)
  : exn + Q :=
  match float_of_int (current_level * photo_count) with
  | None => inl OverflowError
  | Some product =>
      let sum := fadd product severity_score in
      match float_of_int (photo_count + 1) with
      | None => inl OverflowError
      | Some divisor =>
          if Qeq_bool divisor 0 then inl ZeroDivisionError
          else
            match sum with
            | None => inl OverflowError
            | Some sum =>
                match fdiv sum divisor with
                | None => inl OverflowError
                | Some quotient => inr quotient
                end
            end
      end
  end.

Section Clock.
Variable clock : nat -> timestamp.

(** [datetime.now().isoformat()] *)
Definition datetime_now : M timestamp :=
    fun w => Return (clock (ticks w))
                    {| disk := disk w; ticks := S (ticks w); reserved := reserved w |}.

Definition update_zone (latitude longitude severity_score radius : Q) : M unit :=
    db <- read_disk ;;
    let zone := fetchone (zone_where latitude radius longitude radius) (zones db) in
    timestamp <- datetime_now ;;
    match zone with
    | Some zone =>
        let zone_id := Zone.id zone in
        let current_level := Zone.waste_level zone in
        let photo_count := Zone.photo_count zone + 1 in
        match level_average current_level photo_count severity_score with
        | inl e => raise e
        | inr average =>
            let new_level := py_int average in
            bind_ints [new_level; photo_count; zone_id] ;;;
            begin_write ;;;
            commit (with_zones db
                      (update_zones_set new_level photo_count timestamp
                                        zone_id (zones db)))
        end
    | None =>
        bind_ints [py_int severity_score; 1] ;;;
        begin_write ;;;
        commit (insert_into_zones latitude longitude radius
                                  (py_int severity_score) 1 timestamp db)
    end.

(** The [INSERT INTO photos] of [add_photo] takes the write lock and stays in
    the open transaction of the caller's connection while [update_zone] works
    on a connection of its own; it reaches the file at [conn.commit()], which
    an exception raised by [update_zone] skips. *)
Definition add_photo (image_path : string) (latitude longitude : Q)
      (waste_category : string) (severity_score confidence : Q) : M Z :=
    timestamp <- datetime_now ;;
    db <- read_disk ;;
    begin_write ;;;
    let photo_id := next_rowid (photos_seq db) (map Photo.id (photos db)) in
    let inserted :=
      Photo.mk photo_id image_path latitude longitude timestamp
               waste_category severity_score confidence false in
    dropping_connection
      (update_zone latitude longitude severity_score default_radius ;;;
       db' <- read_disk ;;
       commit {| photos := photos db' ++ [inserted];
                 photos_seq := photo_id;
                 zones := zones db';
                 zones_seq := zones_seq db' |} ;;;
       ret photo_id).
End Clock.

Definition get_all_photos : M (list Photo.row) :=
  db <- read_disk ;;
  ret (order_by_desc Photo.timestamp String.ltb (photos db)).

Definition get_photos_in_bounds (north south east west : Q) : M (list Photo.row) :=
  db <- read_disk ;;
  ret (order_by_desc Photo.timestamp String.ltb
         (filter (bounds_where north south east west) (photos db))).

Definition get_photo_by_id (photo_id : Z) : M (option Photo.row) :=
  bind_ints [photo_id] ;;;
  db <- read_disk ;;
  ret (fetchone (fun p => Photo.id p =? photo_id) (photos db)).

Definition get_all_zones : M (list Zone.row) :=
  db <- read_disk ;;
  ret (order_by_desc Zone.waste_level Z.ltb (zones db)).

Definition get_zone_by_location (latitude longitude radius : Q) : M (option Zone.row) :=
  db <- read_disk ;;
  ret (fetchone (zone_where latitude radius longitude radius) (zones db)).

(** ** Sequences of calls *)

Inductive call :=
| call_add_photo (image_path : string) (latitude longitude : Q)
                 (waste_category : string) (severity_score confidence : Q)
| call_update_zone (latitude longitude severity_score radius : Q).

Definition perform (clock : nat -> timestamp) (c : call) : M unit :=
  match c with
  | call_add_photo image_path latitude longitude waste_category severity_score
                   confidence =>
      add_photo clock image_path latitude longitude waste_category
                severity_score confidence ;;; ret tt
  | call_update_zone latitude longitude severity_score radius =>
      update_zone clock latitude longitude severity_score radius
  end.

(** A caller that makes the calls one after the other and carries on after
    an exception. *)
Fixpoint run (clock : nat -> timestamp) (cs : list call) (w : world) : world :=
  match cs with
  | [] => w
  | c :: cs' => run clock cs' (world_of (perform clock c w))
  end.

Definition severity_of (c : call) : Q :=
  match c with
  | call_add_photo _ _ _ _ severity_score _ => severity_score
  | call_update_zone _ _ severity_score _ => severity_score
  end.

Definition radius_of (c : call) : Q :=
  match c with
  | call_add_photo _ _ _ _ _ _ => default_radius
  | call_update_zone _ _ _ radius => radius
  end.

Definition fresh : world := {| disk := init_db; ticks := 0; reserved := false |}.

Definition tick (w : world) : world :=
  {| disk := disk w; ticks := S (ticks w); reserved := reserved w |}.

(** ** What the claims speak about *)

(** [ABS(centre - x) < radius] as the code evaluates it. *)
Definition near (centre x radius : Q) : Prop :=
  exists d, fsub centre x = Some d /\ (Qabs d < radius)%Q.

(** The containment test of the two lookups: the square cell of half-width
    [radius] around the centre of [z], with the differences rounded. *)
Definition cell_contains (latitude longitude radius : Q) (z : Zone.row) : Prop :=
  near (Zone.center_lat z) latitude radius
  /\ near (Zone.center_lng z) longitude radius.

(** The same cell in exact arithmetic. *)
Definition cell_contains_exactly (latitude longitude radius : Q) (z : Zone.row)
  : Prop :=
  (Qabs (latitude - Zone.center_lat z) < radius
   /\ Qabs (longitude - Zone.center_lng z) < radius)%Q.

(** The bounding box contains the location of [p]. *)
Definition in_bounds (north south east west : Q) (p : Photo.row) : Prop :=
  (south <= Photo.latitude p /\ Photo.latitude p <= north
   /\ west <= Photo.longitude p /\ Photo.longitude p <= east)%Q.

Definition result_of {A} (o : outcome A) : option A :=
  match o with Return a _ => Some a | Raise _ _ => None end.

(** Primary-key discipline of the [zones] table in scan order. *)
Definition ids_ascending (table : list Zone.row) : Prop :=
  StronglySorted Z.lt (map Zone.id table).

(** ** Concrete data used by the examples *)

(** Readings of a clock, in the format of [isoformat()]. *)
Definition demo_clock (n : nat) : timestamp :=
  match n with
  | 0%nat => "2024-03-01T10:00:00.000100"
  | 1%nat => "2024-03-01T10:00:00.004200"
  | 2%nat => "2024-03-01T10:05:00.000100"
  | 3%nat => "2024-03-01T10:05:00.004200"
  | 4%nat => "2024-03-01T10:10:00.000100"
  | _ => "2024-03-01T10:10:00.004200"
  end%string.


(** The doubles written [18.5204], [73.8567], [18.5205], [73.8568], [18.6]
    and [73.9]. *)
Definition lat_18_5204 : Q := 5213029158672033 # 281474976710656.
Definition lng_73_8567 : Q := 5197203228106477 # 70368744177664.
Definition lat_18_5205 : Q := 651632163271213 # 35184372088832.
Definition lng_73_8568 : Q := 5197210264980895 # 70368744177664.
Definition lat_18_6 : Q := 2617717283409101 # 140737488355328.
Definition lng_73_9 : Q := 2600125097364685 # 35184372088832.

(** The double written [2e-19]. *)
Definition tiny_2e_19 : Q := 2076918743413931 # 10384593717069655257060992658440192.

(** A store with one zone row centred at latitude 0.005 and longitude 0. *)
Definition edge_world : world :=
  {| disk := {| photos := [];
                photos_seq := 0;
                zones := [Zone.mk 1 default_radius 0 default_radius
                                  5 1 "2024-03-01T10:00:00.000100"];
                zones_seq := 1 |};
     ticks := 1;
     reserved := false |}.

(** ** Orders on listings *)

(** The order of the claim on [listZones]: higher level first, and among
    equal levels the more recently updated first. *)
Definition by_level_then_recency (a b : Zone.row) : Prop :=
  Zone.waste_level a > Zone.waste_level b
  \/ (Zone.waste_level a = Zone.waste_level b
      /\ String.leb (Zone.last_updated b) (Zone.last_updated a) = true).

Definition by_level_desc (a b : Zone.row) : Prop :=
  Zone.waste_level a >= Zone.waste_level b.

Definition newest_first (p q : Photo.row) : Prop :=
  String.leb (Photo.timestamp q) (Photo.timestamp p) = true.

(** Two far-apart zone updates of equal severity. *)
Definition two_level_five_updates : list call :=
  [call_update_zone lat_18_5204 lng_73_8567 5 default_radius;
   call_update_zone lat_18_6 lng_73_9 5 default_radius].

(** A zone update of severity 0 and one of severity 10 next to it. *)
Definition zero_then_ten : list call :=
  [call_update_zone lat_18_5204 lng_73_8567 0 default_radius;
   call_update_zone lat_18_5205 lng_73_8568 10 default_radius].

(** The double written [2.9999999999999996], the largest one below 3. *)
Definition just_below_3 : Q := 6755399441055743 # 2251799813685248.


(** ** Comparing stores column by column *)

(** Two zone rows that agree on every column, except that the [radius]
    columns are related by [Rr] and the [last_updated] columns by [Rt]. *)
Definition zone_agree (Rr : Q -> Q -> Prop) (Rt : string -> string -> Prop)
    (a b : Zone.row) : Prop :=
  Zone.id a = Zone.id b
  /\ Zone.center_lat a = Zone.center_lat b
  /\ Zone.center_lng a = Zone.center_lng b
  /\ Rr (Zone.radius a) (Zone.radius b)
  /\ Zone.waste_level a = Zone.waste_level b
  /\ Zone.photo_count a = Zone.photo_count b
  /\ Rt (Zone.last_updated a) (Zone.last_updated b).









(** The severity of a call lies in [0, 10]. *)
Definition severity_ok (c : call) : Prop :=
  (0 <= severity_of c)%Q /\ (severity_of c <= 10)%Q.

(** A store with one zone row, and the same store with another [radius] in
    that row. *)
Definition one_zone_world (radius : Q) : world :=
  {| disk := {| photos := [];
                photos_seq := 0;
                zones := [Zone.mk 1 lat_18_5204 lng_73_8567 radius
                                  8 1 "2024-03-01T10:00:00.004200"];
                zones_seq := 1 |};
     ticks := 2;
     reserved := false |}.

(** A store with two photo rows and no zone. *)
Definition two_photo_world : world :=
  {| disk := {| photos := [Photo.mk 1 "uploads/0001_a.jpg" lat_18_5204 lng_73_8567
                                    "2024-03-01T10:00:00.000100" "mixed" 8 (1 # 2)
                                    false;
                           Photo.mk 2 "uploads/0002_b.jpg" lat_18_6 lng_73_9
                                    "2024-03-01T10:05:00.000100" "plastic" 5 (1 # 2)
                                    false];
                photos_seq := 2;
                zones := [];
                zones_seq := 0 |};
     ticks := 4;
     reserved := false |}.


(** ** Measures and relations on the [zones] table *)

(** Sum of the [photo_count] column. *)
Definition total_count (table : list Zone.row) : Z :=
  fold_right (fun z acc => Zone.photo_count z + acc) 0 table.

(** [b] is the row [a] at a later time: same [id], centre and [radius], and a
    [photo_count] that has not gone down. *)
Definition zone_grows (a b : Zone.row) : Prop :=
  Zone.id a = Zone.id b
  /\ Zone.center_lat a = Zone.center_lat b
  /\ Zone.center_lng a = Zone.center_lng b
  /\ Zone.radius a = Zone.radius b
  /\ Zone.photo_count a <= Zone.photo_count b.

(** The centre of [b] fails the containment test of the cell of half-width
    [radius] around [a]. *)
Definition apart (radius : Q) (a b : Zone.row) : Prop :=
  zone_where (Zone.center_lat b) radius (Zone.center_lng b) radius a = false.

(** ** The effect of one zone update on the database file *)

(** What a call of [update_zone] that reads the clock as [ts] can make of the
    file [db]: nothing, an update of the first matching row, or a new row. *)
Inductive zone_step (latitude longitude severity_score radius : Q)
    (ts : timestamp) (db : database) : database -> Prop :=
| step_nothing : zone_step latitude longitude severity_score radius ts db db
| step_update (z : Zone.row) (average : Q) :
    fetchone (zone_where latitude radius longitude radius) (zones db) = Some z ->
    level_average (Zone.waste_level z) (Zone.photo_count z + 1) severity_score
    = inr average ->
    forallb int64 [py_int average; Zone.photo_count z + 1; Zone.id z] = true ->
    zone_step latitude longitude severity_score radius ts db
      (with_zones db
         (update_zones_set (py_int average) (Zone.photo_count z + 1) ts
                           (Zone.id z) (zones db)))
| step_insert :
    fetchone (zone_where latitude radius longitude radius) (zones db) = None ->
    forallb int64 [py_int severity_score; 1] = true ->
    zone_step latitude longitude severity_score radius ts db
      (insert_into_zones latitude longitude radius (py_int severity_score) 1 ts db).

(** ** Invariants of the zone columns *)

(** The columns of a zone row after [n] calls on an empty store. *)
Definition zone_ok (n : nat) (z : Zone.row) : Prop :=
  0 <= Zone.waste_level z <= 10
  /\ 1 <= Zone.photo_count z <= Z.of_nat n
  /\ 1 <= Zone.id z <= Z.of_nat n.

Definition file_ok (n : nat) (db : database) : Prop :=
  0 <= zones_seq db <= Z.of_nat n /\ Forall (zone_ok n) (zones db).

Definition is_add_photo (c : call) : bool :=
  match c with
  | call_add_photo _ _ _ _ _ _ => true
  | call_update_zone _ _ _ _ => false
  end.

(** * The upload handler of [app.py]

    Text is a string of bytes, and [lower()] acts on the ASCII letters, the
    only ones that can make up an allowed extension.  The functions of
    [cv2], [uuid], [werkzeug] and Python's [float] are parameters; an image
    is the list of its pixels, three 8-bit channels each. *)

(** ** [allowed_file] *)

Definition ascii_lower (c : ascii) : ascii :=
  let n := N_of_ascii c in
  if ((65 <=? n) && (n <=? 90))%N then ascii_of_N (n + 32) else c.

(** [s.lower()] *)
Fixpoint lower (s : string) : string :=
  match s with
  | EmptyString => EmptyString
  | String c s' => String (ascii_lower c) (lower s')
  end.

(** [c in s] for a one-character [c] *)
Fixpoint contains_char (c : ascii) (s : string) : bool :=
  match s with
  | EmptyString => false
  | String a s' => Ascii.eqb a c || contains_char c s'
  end.

(** [s.rsplit(sep, 1)] for a one-character [sep]: [s] cut at its last [sep],
    or [s] alone when it has none. *)
Fixpoint rsplit1 (sep : ascii) (s : string) : list string :=
  match s with
  | EmptyString => [EmptyString]
  | String c s' =>
      match rsplit1 sep s' with
      | [last] => if Ascii.eqb c sep then [EmptyString; last] else [String c last]
      | head :: rest => String c head :: rest
      | [] => []
      end
  end.

Definition ALLOWED_EXTENSIONS : list string := ["png"; "jpg"; "jpeg"]%string.

Definition allowed_file (filename : string) : bool :=
  contains_char "." filename
  && match nth_error (rsplit1 "." filename) 1 with
     | Some extension =>
         existsb (String.eqb (lower extension)) ALLOWED_EXTENSIONS
     | None => false
     end.

(** ** [analyze_waste_image] *)

(** [min(a, b)] *)
Definition py_min (a b : Q) : Q := if Qltb b a then b else a.

(** [round(x, ndigits)] *)
Definition py_round (x : Q) (ndigits : nat) : Q :=
  (inject_Z (round_half_even (x * inject_Z (10 ^ Z.of_nat ndigits)))
   / inject_Z (10 ^ Z.of_nat ndigits))%Q.

(** [a / b] on two ints *)
Definition true_div (a b : Z) : exn + Q :=
  if b =? 0 then inl ZeroDivisionError else inr (inject_Z a / inject_Z b)%Q.

Definition pixel : Type := Z * Z * Z.

(** [cv2.inRange] at one pixel *)
Definition inRange (lowerb upperb : pixel) (px : pixel) : bool :=
  let '(l0, l1, l2) := lowerb in
  let '(u0, u1, u2) := upperb in
  let '(p0, p1, p2) := px in
  (l0 <=? p0) && (p0 <=? u0) && (l1 <=? p1) && (p1 <=? u1)
  && (l2 <=? p2) && (p2 <=? u2).

(** [cv2.countNonZero] of a mask *)
Definition countNonZero (mask : list bool) : Z :=
  Z.of_nat (List.length (filter (fun b => b) mask)).

Record analysis := {
  category : string;
  confidence : Q;
  severity : Q
}.

Section Vision.
(** [cv2.imread]: the pixels of the file, or [None]. *)
Variable imread : string -> option (list pixel).
(** [cv2.cvtColor(img, cv2.COLOR_BGR2HSV)] at one pixel. *)
Variable bgr2hsv : pixel -> pixel.

Definition analyze_waste_image (image_path : string) : exn + analysis :=
  match imread image_path with
  | None => inr {| category := "unknown"; confidence := 0; severity := 0 |}
  | Some img =>
      let hsv := map bgr2hsv img in
      let green_mask := map (inRange (36, 25, 25) (70, 255, 255)) hsv in
      let brown_mask := map (inRange (10, 100, 20) (20, 255, 200)) hsv in
      let blue_mask := map (inRange (90, 50, 50) (130, 255, 255)) hsv in
      let green_count := countNonZero green_mask in
      let brown_count := countNonZero brown_mask in
      let blue_count := countNonZero blue_mask in
      let total_pixels := Z.of_nat (List.length img) in
      let rated :=
        if (brown_count <? green_count) && (blue_count <? green_count) then
          match true_div green_count total_pixels with
          | inl e => inl e
          | inr q => inr ("organic"%string, py_min (q * 3) (95 # 100))
          end
        else if blue_count <? brown_count then
          match true_div brown_count total_pixels with
          | inl e => inl e
          | inr q => inr ("mixed"%string, py_min (q * 3) (95 # 100))
          end
        else
          match true_div blue_count total_pixels with
          | inl e => inl e
          | inr q => inr ("plastic"%string, py_min (q * 3) (95 # 100))
          end in
      match rated with
      | inl e => inl e
      | inr (category, confidence) =>
          match true_div green_count total_pixels with
          | inl e => inl e
          | inr q =>
              let non_green_ratio := (1 - q)%Q in
              let severity := py_min (py_round (non_green_ratio * 10) 1) 10 in
              inr {| category := category;
                     confidence := py_round confidence 2;
                     severity := severity |}
          end
      end
  end.
End Vision.

(** ** [upload_photo] *)

(** What the handler reads from the request: the file name of the [photo]
    part and the two form fields, each absent or present. *)
Record upload_request := {
  files_photo : option string;
  form_latitude : option string;
  form_longitude : option string
}.

(** The event sent over the socket. *)
Record new_photo := {
  e_photo_id : Z;
  e_image_path : string;
  e_latitude : Q;
  e_longitude : Q;
  e_timestamp : string;
  e_analysis : analysis;
  e_zone : option Zone.row
}.

(** The answer of the handler: a 400 with its message, or the success
    answer together with the event that was emitted before it. *)
Inductive response :=
| BadRequest (error : string)
| Success (photo_id : Z) (result : analysis) (emitted : new_photo).

Section Handler.
Variable clock : nat -> timestamp.
Variable imread : string -> option (list pixel).
Variable bgr2hsv : pixel -> pixel.
(** [float(text)]: the number, or [None] for [ValueError]. *)
Variable py_float : string -> option Q.
Variable secure_filename : string -> string.
(** The text of [uuid.uuid4()] drawn by this call. *)
Variable uuid4 : string.

Definition upload_photo (request : upload_request) : M response :=
  match files_photo request with
  | None => ret (BadRequest "No photo part")
  | Some filename =>
      if String.eqb filename "" then ret (BadRequest "No selected file")
      else if negb (allowed_file filename) then ret (BadRequest "File type not allowed")
      else
        match
          match form_latitude request with
          | None => None
          | Some text =>
              match py_float text with
              | None => None
              | Some latitude =>
                  match form_longitude request with
                  | None => None
                  | Some text' =>
                      match py_float text' with
                      | None => None
                      | Some longitude => Some (latitude, longitude)
                      end
                  end
              end
          end
        with
        | None => ret (BadRequest "Invalid location data")
        | Some (latitude, longitude) =>
            let filename := (uuid4 ++ "_" ++ secure_filename filename)%string in
            let filepath := ("uploads" ++ "/" ++ filename)%string in
            match analyze_waste_image imread bgr2hsv filepath with
            | inl e => raise e
            | inr analysis =>
                photo_id <- add_photo clock filepath latitude longitude
                                      (category analysis) (severity analysis)
                                      (confidence analysis) ;;
                zone <- get_zone_by_location latitude longitude default_radius ;;
                now <- datetime_now clock ;;
                ret (Success photo_id analysis
                       {| e_photo_id := photo_id;
                          e_image_path := filepath;
                          e_latitude := latitude;
                          e_longitude := longitude;
                          e_timestamp := now;
                          e_analysis := analysis;
                          e_zone := zone |})
            end
        end
  end.
End Handler.

(** ** What the properties of [app.py] speak about *)

(** Number of pixels of [img] whose HSV value lies in a range. *)
Definition count_in (bgr2hsv : pixel -> pixel) (lowerb upperb : pixel)
    (img : list pixel) : Z :=
  countNonZero (map (inRange lowerb upperb) (map bgr2hsv img)).

Definition green_of (bgr2hsv : pixel -> pixel) : list pixel -> Z :=
  count_in bgr2hsv (36, 25, 25) (70, 255, 255).

Definition brown_of (bgr2hsv : pixel -> pixel) : list pixel -> Z :=
  count_in bgr2hsv (10, 100, 20) (20, 255, 200).

Definition blue_of (bgr2hsv : pixel -> pixel) : list pixel -> Z :=
  count_in bgr2hsv (90, 50, 50) (130, 255, 255).

(** A file system with one blank 2x1 image, for the examples. *)
Definition demo_imread (image_path : string) : option (list pixel) :=
  if String.eqb image_path "uploads/0000_wall.png"
  then Some [(255, 255, 255); (250, 250, 250)]
  else None.

Definition demo_bgr2hsv (px : pixel) : pixel :=
  let '(b, g, r) := px in (0, 0, Z.max b (Z.max g r)).

Definition demo_float (text : string) : option Q :=
  if String.eqb text "18.5204" then Some lat_18_5204
  else if String.eqb text "73.8567" then Some lng_73_8567
  else None.

Definition demo_secure_filename (name : string) : string := name.

Definition demo_request : upload_request :=
  {| files_photo := Some "wall.png"%string;
     form_latitude := Some "18.5204"%string;
     form_longitude := Some "73.8567"%string |}.

(** The request names an allowed file and carries two numbers. *)
Definition well_formed (py_float : string -> option Q) (request : upload_request)
  : Prop :=
  exists filename text text' latitude longitude,
    files_photo request = Some filename
    /\ allowed_file filename = true
    /\ form_latitude request = Some text
    /\ py_float text = Some latitude
    /\ form_longitude request = Some text'
    /\ py_float text' = Some longitude.

(** Where [upload_photo] saves the file. *)
Definition upload_path (secure_filename : string -> string) (uuid4 filename : string)
  : string :=
  ("uploads" ++ "/" ++ (uuid4 ++ "_" ++ secure_filename filename))%string.

(** * Properties of [database.py] *)

(** ** Arithmetic of the primitives *)

Lemma Qltb_lt (x y : Q) : Qltb x y = true <-> (x < y)%Q.
Proof.
  unfold Qltb. rewrite negb_true_iff. split; intro H.
  - apply Qnot_le_lt. intro Hle. apply Qle_bool_iff in Hle. congruence.
  - destruct (Qle_bool y x) eqn:E; [|reflexivity].
    apply Qle_bool_iff in E. exfalso. exact (Qlt_not_le _ _ H E).
Qed.

Lemma Qltb_ge (x y : Q) : Qltb x y = false <-> (y <= x)%Q.
Proof.
  unfold Qltb. rewrite negb_false_iff. apply Qle_bool_iff.
Qed.

Lemma bounds_where_in_bounds (north south east west : Q) (p : Photo.row) :
  bounds_where north south east west p = true <-> in_bounds north south east west p.
Proof.
  unfold bounds_where, in_bounds. rewrite !andb_true_iff, !Qle_bool_iff. tauto.
Qed.

Lemma py_int_floor (x : Q) : (0 <= x)%Q -> py_int x = Qfloor x.
Proof.
  destruct x as [n d]. unfold Qle, py_int, Qfloor. simpl. intro H.
  apply Z.quot_div_nonneg; lia.
Qed.

Lemma Qfloor_eq (x : Q) (n : Z) :
  (inject_Z n <= x)%Q -> (x < inject_Z (n + 1))%Q -> Qfloor x = n.
Proof.
  intros Hle Hlt.
  assert (H1 : n <= Qfloor x).
  { rewrite <- (Qfloor_Z n). apply Qfloor_resp_le. exact Hle. }
  assert (H2 : Qfloor x < n + 1).
  { rewrite Zlt_Qlt. apply (Qle_lt_trans _ x); [apply Qfloor_le | exact Hlt]. }
  lia.
Qed.

Lemma Qfloor_range (x : Q) (a b : Z) :
  (inject_Z a <= x)%Q -> (x < inject_Z (b + 1))%Q -> a <= Qfloor x <= b.
Proof.
  intros Ha Hb. split.
  - rewrite <- (Qfloor_Z a). apply Qfloor_resp_le. exact Ha.
  - assert (H : Qfloor x < b + 1); [|lia].
    rewrite Zlt_Qlt. apply (Qle_lt_trans _ x); [apply Qfloor_le | exact Hb].
Qed.

Lemma py_int_range (x : Q) : (0 <= x)%Q -> (x <= 10)%Q -> 0 <= py_int x <= 10.
Proof.
  intros H0 H10. rewrite (py_int_floor x H0).
  apply Qfloor_range; [exact H0|]. change (inject_Z (10 + 1)) with 11%Q. lra.
Qed.

Lemma int64_range (n : Z) : int64 n = true <-> - 2 ^ 63 <= n < 2 ^ 63.
Proof.
  unfold int64. rewrite andb_true_iff, Z.leb_le, Z.ltb_lt. tauto.
Qed.

(** ** Rounding to an integer *)

Lemma round_half_even_bounds (x : Q) (a b : Z) :
  (inject_Z a <= x)%Q -> (x <= inject_Z b)%Q -> a <= round_half_even x <= b.
Proof.
  intros Ha Hb.
  assert (Hfa : a <= Qfloor x).
  { rewrite <- (Qfloor_Z a). apply Qfloor_resp_le. exact Ha. }
  assert (Hfb : Qfloor x <= b).
  { rewrite <- (Qfloor_Z b). apply Qfloor_resp_le. exact Hb. }
  unfold round_half_even.
  destruct (Qltb (x - inject_Z (Qfloor x)) (1 # 2)) eqn:E; [lia|].
  assert (Hr : (inject_Z (Qfloor x) < x)%Q).
  { apply Qnot_le_lt. intro Hle.
    assert (Hlt : (x - inject_Z (Qfloor x) < 1 # 2)%Q) by lra.
    apply Qltb_lt in Hlt. congruence. }
  assert (Hlt : Qfloor x < b).
  { rewrite Zlt_Qlt. apply (Qlt_le_trans _ x); assumption. }
  destruct (Qltb (1 # 2) (x - inject_Z (Qfloor x))); [lia|].
  destruct (Z.even (Qfloor x)); lia.
Qed.

Lemma round_half_even_comp (x y : Q) :
  (x == y)%Q -> round_half_even x = round_half_even y.
Proof.
  intro E. unfold round_half_even. rewrite (Qfloor_comp x y E).
  assert (E' : (x - inject_Z (Qfloor y) == y - inject_Z (Qfloor y))%Q)
    by (rewrite E; reflexivity).
  assert (H1 : Qltb (x - inject_Z (Qfloor y)) (1 # 2)
               = Qltb (y - inject_Z (Qfloor y)) (1 # 2))
    by (unfold Qltb; rewrite E'; reflexivity).
  assert (H2 : Qltb (1 # 2) (x - inject_Z (Qfloor y))
               = Qltb (1 # 2) (y - inject_Z (Qfloor y)))
    by (unfold Qltb; rewrite E'; reflexivity).
  rewrite H1, H2. reflexivity.
Qed.

Lemma round_half_even_integer (n : Z) (x : Q) :
  (x == inject_Z n)%Q -> round_half_even x = n.
Proof.
  intro E. rewrite (round_half_even_comp x (inject_Z n) E).
  unfold round_half_even. rewrite Qfloor_Z.
  assert (H : Qltb (inject_Z n - inject_Z n) (1 # 2) = true).
  { apply Qltb_lt. lra. }
  rewrite H. reflexivity.
Qed.

(** The nearest integer is at most one half away. *)
Lemma round_half_even_error (x : Q) :
  (Qabs (inject_Z (round_half_even x) - x) <= 1 # 2)%Q.
Proof.
  pose proof (Qfloor_le x) as Hlo. pose proof (Qlt_floor x) as Hhi.
  assert (Hup : (inject_Z (Qfloor x + 1) == inject_Z (Qfloor x) + 1)%Q)
    by (rewrite inject_Z_plus; reflexivity).
  unfold round_half_even. cbv zeta.
  set (f := inject_Z (Qfloor x)) in *. set (g := inject_Z (Qfloor x + 1)) in *.
  assert (H : (x - f < 1 # 2 -> Qabs (f - x) <= 1 # 2)%Q).
  { intro E. apply Qabs_Qle_condition. clearbody f g. split; lra. }
  assert (H' : (1 # 2 <= x - f -> Qabs (g - x) <= 1 # 2)%Q).
  { intro E. apply Qabs_Qle_condition. clearbody f g. split; lra. }
  destruct (Qltb (x - f) (1 # 2)) eqn:E1.
  - apply Qltb_lt in E1. fold f. apply H. exact E1.
  - apply Qltb_ge in E1.
    destruct (Qltb (1 # 2) (x - f)) eqn:E2; [fold g; apply H'; exact E1|].
    apply Qltb_ge in E2.
    destruct (Z.even (Qfloor x)); [|fold g; apply H'; exact E1].
    fold f. apply Qabs_Qle_condition. clearbody f g. split; lra.
Qed.

(** ** Rounding to a double *)

Lemma pow2_pos (e : Z) : (0 < pow2 e)%Q.
Proof. apply Qpower_0_lt. reflexivity. Qed.

Lemma pow2_plus (a b : Z) : (pow2 (a + b) == pow2 a * pow2 b)%Q.
Proof. apply Qpower_plus. discriminate. Qed.

Lemma pow2_le (a b : Z) : a <= b -> (pow2 a <= pow2 b)%Q.
Proof. intro H. apply Qpower_le_compat_l; [exact H | discriminate]. Qed.

Lemma pow2_inject (a : Z) : 0 <= a -> (pow2 a == inject_Z (2 ^ a))%Q.
Proof. intro H. unfold pow2. rewrite (Zpower_Qpower 2 a H). reflexivity. Qed.

Lemma pow2_cancel (e : Z) : (pow2 (- e) * pow2 e == 1)%Q.
Proof.
  rewrite <- pow2_plus. replace (- e + e) with 0 by lia. reflexivity.
Qed.

Lemma Qabs_Qmake (n : Z) (d : positive) :
  (Qabs (n # d) == inject_Z (Z.abs n) / inject_Z (Zpos d))%Q.
Proof.
  unfold Qabs. apply Qmake_Qdiv.
Qed.

(** [ilog2 x] is not above the binary logarithm of [|x|]. *)
Lemma ilog2_le (x : Q) : ~ (x == 0)%Q -> (pow2 (ilog2 x) <= Qabs x)%Q.
Proof.
  intro Hx. unfold ilog2.
  set (k := Z.log2 (Z.abs (Qnum x)) - Z.log2 (Z.pos (Qden x))).
  destruct (Qle_bool (pow2 k) (Qabs x)) eqn:E.
  - apply Qle_bool_iff. exact E.
  - clear E. destruct x as [n d].
    assert (Hk : k = Z.log2 (Z.abs n) - Z.log2 (Z.pos d)) by reflexivity.
    clearbody k.
    assert (Hn : 0 < Z.abs n).
    { assert (n <> 0); [|lia]. intro H0. apply Hx. subst n. reflexivity. }
    pose proof (Z.log2_spec (Z.abs n) Hn) as [Hlo _].
    pose proof (Z.log2_spec (Z.pos d) (Pos2Z.is_pos d)) as [_ Hhi].
    pose proof (Z.log2_nonneg (Z.abs n)) as Ha.
    pose proof (Z.log2_nonneg (Z.pos d)) as Hb.
    set (a := Z.log2 (Z.abs n)) in *. set (b := Z.log2 (Z.pos d)) in *.
    rewrite Qabs_Qmake.
    assert (Hd : (0 < inject_Z (Z.pos d))%Q) by (rewrite <- (Zlt_Qlt 0); lia).
    apply Qle_shift_div_l; [exact Hd|].
    apply (Qle_trans _ (pow2 (k - 1) * pow2 (Z.succ b))).
    + apply Qmult_le_l; [apply pow2_pos|].
      rewrite (pow2_inject (Z.succ b)) by lia. rewrite <- Zle_Qle. lia.
    + rewrite <- pow2_plus. replace (k - 1 + Z.succ b) with a by lia.
      rewrite (pow2_inject a Ha). rewrite <- Zle_Qle. exact Hlo.
Qed.

Lemma round_value_zero (x : Q) : (x == 0)%Q -> round_value x = 0%Q.
Proof.
  intro H. unfold round_value. apply Qeq_bool_iff in H. rewrite H. reflexivity.
Qed.

(** The rounded value as a multiple of the unit in the last place. *)
Lemma round_value_eq (x : Q) :
  ~ (x == 0)%Q ->
  let e := Z.max (ilog2 x - 52) (-1074) in
  (round_value x == inject_Z (round_half_even (x * pow2 (- e))) * pow2 e)%Q.
Proof.
  intros Hx e. unfold round_value.
  destruct (Qeq_bool x 0) eqn:E.
  - apply Qeq_bool_iff in E. contradiction.
  - fold e. apply Qred_correct.
Qed.

(** Rounding moves a value by at most half a unit in the last place. *)
Lemma round_value_ulp (x : Q) :
  ~ (x == 0)%Q ->
  (Qabs (round_value x - x)
   <= (1 # 2) * pow2 (Z.max (ilog2 x - 52) (-1074)))%Q.
Proof.
  intro Hx. set (e := Z.max (ilog2 x - 52) (-1074)).
  pose proof (round_value_eq x Hx) as Hv. fold e in Hv. cbv zeta in Hv.
  pose proof (round_half_even_error (x * pow2 (- e))) as Herr.
  set (n := inject_Z (round_half_even (x * pow2 (- e)))) in *.
  assert (E : (round_value x - x == (n - x * pow2 (- e)) * pow2 e)%Q).
  { rewrite Hv. pose proof (pow2_cancel e) as Hc.
    transitivity (n * pow2 e - x * (pow2 (- e) * pow2 e))%Q; [|ring].
    rewrite Hc. ring. }
  rewrite E, Qabs_Qmult.
  rewrite (Qabs_pos (pow2 e)) by (apply Qlt_le_weak, pow2_pos).
  apply Qmult_le_compat_r; [exact Herr|]. apply Qlt_le_weak, pow2_pos.
Qed.

Lemma Qabs_zero (x : Q) : (x == 0)%Q -> (Qabs x == 0)%Q.
Proof. intro H. rewrite H. reflexivity. Qed.

(** A bound on the rounding error that is enough for the zone levels: one
    part in a thousand, and a thousandth. *)
Lemma round_value_error (x : Q) :
  (Qabs (round_value x - x) <= Qabs x * (1 # 1000) + (1 # 1000))%Q.
Proof.
  destruct (Qeq_dec x 0) as [H0|H0].
  - rewrite (round_value_zero x H0).
    assert (E : (0 - x == 0)%Q) by (rewrite H0; reflexivity).
    rewrite (Qabs_zero _ E), (Qabs_zero _ H0). lra.
  - pose proof (round_value_ulp x H0) as H. pose proof (ilog2_le x H0) as Hl.
    set (e := Z.max (ilog2 x - 52) (-1074)) in *.
    assert (He : (pow2 e <= Qabs x * (2 # 1000) + (2 # 1000))%Q).
    { pose proof (Qabs_nonneg x) as Hn.
      destruct (Z.max_spec (ilog2 x - 52) (-1074)) as [[_ E]|[_ E]];
        fold e in E; rewrite E.
      - assert (Hc : (pow2 (-1074) <= 2 # 1000)%Q) by (vm_compute; discriminate).
        lra.
      - replace (ilog2 x - 52) with (ilog2 x + - 52) by lia. rewrite pow2_plus.
        assert (Hc : (pow2 (-52) <= 2 # 1000)%Q) by (vm_compute; discriminate).
        pose proof (pow2_pos (ilog2 x)) as Hp. pose proof (pow2_pos (-52)) as Hq.
        set (p := pow2 (ilog2 x)) in *. set (q := pow2 (-52)) in *.
        set (ax := Qabs x) in *. clearbody p q ax. nra. }
    set (p := pow2 e) in *. set (ax := Qabs x) in *.
    set (d := Qabs (round_value x - x)) in *. clearbody p ax d. lra.
Qed.

Lemma round_value_nonneg (x : Q) : (0 <= x)%Q -> (0 <= round_value x)%Q.
Proof.
  intro Hx. destruct (Qeq_dec x 0) as [H0|H0].
  - rewrite (round_value_zero x H0). apply Qle_refl.
  - rewrite (round_value_eq x H0). cbv zeta.
    set (e := Z.max (ilog2 x - 52) (-1074)).
    apply Qmult_le_0_compat; [|apply Qlt_le_weak, pow2_pos].
    rewrite <- (Zle_Qle 0).
    assert (H : (0 <= x * pow2 (- e))%Q).
    { apply Qmult_le_0_compat; [exact Hx | apply Qlt_le_weak, pow2_pos]. }
    unfold round_half_even.
    assert (Hf : 0 <= Qfloor (x * pow2 (- e))).
    { change 0 with (Qfloor 0). apply Qfloor_resp_le. exact H. }
    destruct (Qltb _ _); [lia|]. destruct (Qltb _ _); [lia|].
    destruct (Z.even _); lia.
Qed.

(** Bounds on the rounded value of a value that is not negative. *)
Lemma round_value_bounds (x : Q) :
  (0 <= x)%Q ->
  (0 <= round_value x)%Q
  /\ (x * (999 # 1000) - (1 # 1000) <= round_value x)%Q
  /\ (round_value x <= x * (1001 # 1000) + (1 # 1000))%Q.
Proof.
  intro Hx. split; [apply round_value_nonneg; exact Hx|].
  pose proof (round_value_error x) as H.
  rewrite (Qabs_pos x Hx) in H. apply Qabs_Qle_condition in H.
  destruct H as [H1 H2]. split; lra.
Qed.

Lemma round_double_Some (x v : Q) : round_double x = Some v -> v = round_value x.
Proof.
  unfold round_double. destruct (Qle_bool _ _); congruence.
Qed.

(** Values up to [2^100] do not overflow. *)
Lemma round_double_finite (x : Q) :
  (0 <= x)%Q -> (x <= inject_Z (2 ^ 100))%Q ->
  round_double x = Some (round_value x).
Proof.
  intros H0 Hx. unfold round_double.
  destruct (round_value_bounds x H0) as (Hn & _ & Hu).
  destruct (Qle_bool (pow2 1024) (Qabs (round_value x))) eqn:E; [|reflexivity].
  apply Qle_bool_iff in E. rewrite (Qabs_pos _ Hn) in E.
  assert (Hc : (inject_Z (2 ^ 100) * (1001 # 1000) + (1 # 1000) < pow2 1024)%Q)
    by (vm_compute; reflexivity).
  set (b := inject_Z (2 ^ 100)) in *. set (p := pow2 1024) in *.
  clearbody b p. lra.
Qed.

Lemma round_double_zero : round_double 0 = Some 0%Q.
Proof. vm_compute. reflexivity. Qed.


(** The constants of the examples are the doubles that Python reads. *)
Lemma constants_are_doubles :
  round_double (5 # 1000) = Some default_radius
  /\ round_double (185204 # 10000) = Some lat_18_5204
  /\ round_double (738567 # 10000) = Some lng_73_8567
  /\ round_double (185205 # 10000) = Some lat_18_5205
  /\ round_double (738568 # 10000) = Some lng_73_8568
  /\ round_double (186 # 10) = Some lat_18_6
  /\ round_double (739 # 10) = Some lng_73_9
  /\ round_double (2 # 10000000000000000000) = Some tiny_2e_19
  /\ round_double (29999999999999996 # 10000000000000000) = Some just_below_3.
Proof.
  vm_compute. repeat split; reflexivity.
Qed.

(** ** The weighted average in doubles *)

Lemma inject_Z_pos (n : Z) : 0 <= n -> (0 <= inject_Z n)%Q.
Proof. intro H. rewrite <- (Zle_Qle 0). exact H. Qed.

(** The intermediate values of [level_average] for a level in [0, 10], a
    count of at least 1 and a severity in [0, 10]. *)
Lemma average_bounds (current_level photo_count : Z) (severity_score : Q) :
  0 <= current_level <= 10 -> 1 <= photo_count ->
  (0 <= severity_score)%Q -> (severity_score <= 10)%Q ->
  let c := inject_Z photo_count in
  let product := round_value (inject_Z (current_level * photo_count)) in
  let sum := round_value (product + severity_score) in
  let divisor := round_value (inject_Z (photo_count + 1)) in
  let quotient := round_value (sum / divisor) in
  (0 <= product /\ product <= 11 * c)%Q
  /\ (0 <= sum /\ sum <= 22 * c)%Q
  /\ (0 < divisor /\ divisor <= 3 * c)%Q
  /\ (0 <= sum / divisor /\ sum / divisor <= 22 * c)%Q
  /\ (0 <= quotient /\ quotient < 11)%Q.
Proof.
  intros HL Hc Hs0 Hs10 c product sum divisor quotient.
  assert (Hc1 : (1 <= c)%Q) by (unfold c; rewrite <- (Zle_Qle 1); exact Hc).
  assert (HX0 : (0 <= inject_Z (current_level * photo_count))%Q)
    by (apply inject_Z_pos; nia).
  assert (HX10 : (inject_Z (current_level * photo_count) <= 10 * c)%Q).
  { unfold c. change 10%Q with (inject_Z 10). rewrite <- inject_Z_mult, <- Zle_Qle.
    nia. }
  destruct (round_value_bounds _ HX0) as (HP0 & _ & HP1). fold product in HP0, HP1.
  assert (HPS : (0 <= product + severity_score)%Q) by lra.
  destruct (round_value_bounds _ HPS) as (HS0 & _ & HS1). fold sum in HS0, HS1.
  assert (HD : (0 <= inject_Z (photo_count + 1))%Q) by (apply inject_Z_pos; lia).
  destruct (round_value_bounds _ HD) as (_ & HD0 & HD1). fold divisor in HD0, HD1.
  assert (ED : (inject_Z (photo_count + 1) == c + 1)%Q)
    by (unfold c; rewrite inject_Z_plus; reflexivity).
  rewrite ED in HD0, HD1.
  set (X := inject_Z (current_level * photo_count)) in *.
  clearbody X product sum divisor c.
  assert (Hd : (0 < divisor)%Q) by lra.
  assert (Hq0 : (0 <= sum / divisor)%Q).
  { apply Qle_shift_div_l; [exact Hd|]. lra. }
  assert (Hq1 : (sum / divisor <= 21 # 2)%Q).
  { apply Qle_shift_div_r; [exact Hd|]. lra. }
  destruct (round_value_bounds _ Hq0) as (HQ0 & _ & HQ1). fold quotient in HQ0, HQ1.
  set (r := (sum / divisor)%Q) in *. clearbody r quotient.
  repeat split; lra.
Qed.

(** For such arguments the average is defined while the count fits in 64
    bits, and it lies in [0, 11). *)
Lemma level_average_defined (current_level photo_count : Z) (severity_score : Q) :
  0 <= current_level <= 10 -> 1 <= photo_count <= 2 ^ 63 ->
  (0 <= severity_score)%Q -> (severity_score <= 10)%Q ->
  exists average,
    level_average current_level photo_count severity_score = inr average
    /\ (0 <= average)%Q /\ (average < 11)%Q.
Proof.
  intros HL [Hc Hc'] Hs0 Hs10.
  destruct (average_bounds current_level photo_count severity_score HL Hc Hs0 Hs10)
    as ((HP0 & HP1) & (HS0 & HS1) & (HD0 & HD1) & (HR0 & HR1) & (HQ0 & HQ1)).
  assert (Hbig : (22 * inject_Z photo_count <= inject_Z (2 ^ 100))%Q).
  { change 22%Q with (inject_Z 22). rewrite <- inject_Z_mult, <- Zle_Qle. lia. }
  assert (Hc0 : (1 <= inject_Z photo_count)%Q) by (rewrite <- (Zle_Qle 1); exact Hc).
  unfold level_average, float_of_int, fadd, fdiv.
  rewrite (round_double_finite (inject_Z (current_level * photo_count)));
    [|apply inject_Z_pos; nia
     |change (2 ^ 100) with (2 ^ 64 * 2 ^ 36); rewrite <- Zle_Qle; nia].
  rewrite (round_double_finite (inject_Z (photo_count + 1)));
    [|apply inject_Z_pos; lia | rewrite <- Zle_Qle; lia].
  set (product := round_value (inject_Z (current_level * photo_count))) in *.
  set (divisor := round_value (inject_Z (photo_count + 1))) in *.
  destruct (Qeq_bool divisor 0) eqn:E.
  { apply Qeq_bool_iff in E. rewrite E in HD0. exfalso. exact (Qlt_irrefl _ HD0). }
  rewrite (round_double_finite (product + severity_score)).
  - set (sum := round_value (product + severity_score)) in *.
    rewrite (round_double_finite (sum / divisor)).
    + eexists. split; [reflexivity|]. split; assumption.
    + exact HR0.
    + apply (Qle_trans _ _ _ HR1 Hbig).
  - clearbody product. lra.
  - set (c := inject_Z photo_count) in *. set (b := inject_Z (2 ^ 100)) in *.
    clearbody product c b. lra.
Qed.

(** Whatever the count, an average that is defined lies in [0, 11). *)
Lemma level_average_range (current_level photo_count : Z) (severity_score average : Q) :
  0 <= current_level <= 10 -> 1 <= photo_count ->
  (0 <= severity_score)%Q -> (severity_score <= 10)%Q ->
  level_average current_level photo_count severity_score = inr average ->
  (0 <= average)%Q /\ (average < 11)%Q.
Proof.
  intros HL Hc Hs0 Hs10.
  destruct (average_bounds current_level photo_count severity_score HL Hc Hs0 Hs10)
    as (_ & _ & _ & _ & HQ).
  unfold level_average, float_of_int, fadd, fdiv.
  destruct (round_double (inject_Z (current_level * photo_count))) as [product|] eqn:EP;
    [|discriminate].
  apply round_double_Some in EP. subst product.
  destruct (round_double (inject_Z (photo_count + 1))) as [divisor|] eqn:ED;
    [|discriminate].
  apply round_double_Some in ED. subst divisor.
  destruct (Qeq_bool _ 0); [discriminate|].
  destruct (round_double (_ + severity_score)) as [sum|] eqn:ES; [|discriminate].
  apply round_double_Some in ES. subst sum.
  destruct (round_double (_ / _)) as [quotient|] eqn:EQ; [|discriminate].
  apply round_double_Some in EQ. subst quotient.
  intro H. injection H as <-. exact HQ.
Qed.

(** The level that [int] makes of such an average. *)
Lemma py_int_average (average : Q) :
  (0 <= average)%Q -> (average < 11)%Q ->
  py_int average = Qfloor average /\ 0 <= py_int average <= 10.
Proof.
  intros H0 H1. rewrite (py_int_floor average H0). split; [reflexivity|].
  apply Qfloor_range; [exact H0 | exact H1].
Qed.

(** ** The containment test *)

Lemma abs_diff_lt_near (a b r : Q) : abs_diff_lt a b r = true <-> near a b r.
Proof.
  unfold abs_diff_lt, near. destruct (fsub a b) as [d|].
  - rewrite Qltb_lt. split.
    + intro H. exists d. split; [reflexivity | exact H].
    + intros (d' & E & H). injection E as ->. exact H.
  - split; [discriminate|]. intros (d & E & _). discriminate.
Qed.

Lemma zone_where_contains (latitude longitude radius : Q) (z : Zone.row) :
  zone_where latitude radius longitude radius z = true
  <-> cell_contains latitude longitude radius z.
Proof.
  unfold zone_where, cell_contains.
  rewrite andb_true_iff, !abs_diff_lt_near. reflexivity.
Qed.

Lemma zone_where_outside (latitude longitude radius : Q) (z : Zone.row) :
  zone_where latitude radius longitude radius z = false
  <-> ~ cell_contains latitude longitude radius z.
Proof.
  rewrite <- zone_where_contains.
  destruct (zone_where latitude radius longitude radius z); split; intro H;
    congruence.
Qed.



(** ** Facts about [fetchone] and rowids *)

Lemma fetchone_none {A} (f : A -> bool) (l : list A) :
  fetchone f l = None <-> (forall x, In x l -> f x = false).
Proof.
  unfold fetchone. split.
  - intros H x Hx. exact (find_none f l H x Hx).
  - induction l as [|a l IH]; intro H; simpl; [reflexivity|].
    rewrite (H a (or_introl eq_refl)). apply IH.
    intros x Hx. apply H. right. exact Hx.
Qed.


Lemma fetchone_In {A} (f : A -> bool) (l : list A) (x : A) :
  fetchone f l = Some x -> In x l /\ f x = true.
Proof.
  unfold fetchone. apply find_some.
Qed.

Lemma fetchone_split {A} (f : A -> bool) (l : list A) (z : A) :
  fetchone f l = Some z ->
  exists before after,
    l = before ++ z :: after /\ f z = true /\ forall x, In x before -> f x = false.
Proof.
  unfold fetchone. induction l as [|a l IH]; simpl; [discriminate|].
  destruct (f a) eqn:E.
  - intro H. injection H as ->. exists [], l. split; [reflexivity|].
    split; [exact E | intros x []].
  - intro H. destruct (IH H) as (before & after & -> & Hz & Hb).
    exists (a :: before), after. split; [reflexivity|]. split; [exact Hz|].
    intros x [->|Hx]; [exact E | apply Hb; exact Hx].
Qed.

Lemma fetchone_app_false {A} (f : A -> bool) (l : list A) (x : A) :
  f x = false -> fetchone f (l ++ [x]) = fetchone f l.
Proof.
  unfold fetchone. intro Hx. induction l as [|a l IH]; simpl.
  - rewrite Hx. reflexivity.
  - destruct (f a); [reflexivity | exact IH].
Qed.


Lemma fold_max_bounds (seq : Z) (ids : list Z) :
  seq <= fold_right Z.max seq ids
  /\ (forall i, In i ids -> i <= fold_right Z.max seq ids).
Proof.
  induction ids as [|a ids [IH1 IH2]]; simpl.
  - split; [lia | intros i []].
  - split; [lia|]. intros i [->|Hi]; [lia|]. specialize (IH2 i Hi). lia.
Qed.

Lemma fold_max_upper (seq bound : Z) (ids : list Z) :
  seq <= bound -> Forall (fun i => i <= bound) ids ->
  fold_right Z.max seq ids <= bound.
Proof.
  intro Hs. induction 1 as [|a ids Ha _ IH]; simpl; lia.
Qed.

Lemma next_rowid_fresh (seq : Z) (ids : list Z) (i : Z) :
  In i ids -> i < next_rowid seq ids.
Proof.
  intro Hi. unfold next_rowid.
  pose proof (proj2 (fold_max_bounds seq ids) i Hi). lia.
Qed.

(** ** The [UPDATE] statement *)

Lemma update_zones_set_ids (new_level photo_count : Z) (ts : timestamp)
    (zone_id : Z) (table : list Zone.row) :
  map Zone.id (update_zones_set new_level photo_count ts zone_id table)
  = map Zone.id table.
Proof.
  unfold update_zones_set. rewrite map_map. apply map_ext.
  intro z. destruct (Zone.id z =? zone_id); reflexivity.
Qed.

Lemma update_zones_set_Forall (P : Zone.row -> Prop) (new_level photo_count : Z)
    (ts : timestamp) (zone_id : Z) (table : list Zone.row) :
  Forall P table ->
  (forall z, In z table -> Zone.id z = zone_id ->
             P (Zone.mk (Zone.id z) (Zone.center_lat z) (Zone.center_lng z)
                        (Zone.radius z) new_level photo_count ts)) ->
  Forall P (update_zones_set new_level photo_count ts zone_id table).
Proof.
  intros Hall Hnew. unfold update_zones_set. apply Forall_forall.
  intros x Hx. apply in_map_iff in Hx. destruct Hx as (z & <- & Hz).
  destruct (Zone.id z =? zone_id) eqn:E.
  - apply Hnew; [exact Hz | apply Z.eqb_eq; exact E].
  - rewrite Forall_forall in Hall. apply Hall. exact Hz.
Qed.

Lemma update_zones_set_other (new_level photo_count : Z) (ts : timestamp)
    (zone_id : Z) (table : list Zone.row) :
  ~ In zone_id (map Zone.id table) ->
  update_zones_set new_level photo_count ts zone_id table = table.
Proof.
  unfold update_zones_set. induction table as [|z table IH]; simpl; intro H.
  - reflexivity.
  - destruct (Zone.id z =? zone_id) eqn:E.
    + apply Z.eqb_eq in E. exfalso. apply H. left. exact E.
    + f_equal. apply IH. intro Hin. apply H. right. exact Hin.
Qed.

(** On a table with unique ids the statement rewrites one row. *)
Lemma update_zones_set_at (new_level photo_count : Z) (ts : timestamp)
    (before after : list Zone.row) (z : Zone.row) :
  NoDup (map Zone.id (before ++ z :: after)) ->
  update_zones_set new_level photo_count ts (Zone.id z) (before ++ z :: after)
  = before
    ++ Zone.mk (Zone.id z) (Zone.center_lat z) (Zone.center_lng z) (Zone.radius z)
               new_level photo_count ts
    :: after.
Proof.
  intro Hdup. rewrite map_app in Hdup. simpl in Hdup.
  pose proof (NoDup_remove_2 _ _ _ Hdup) as Hnot.
  unfold update_zones_set at 1. rewrite map_app. simpl. rewrite Z.eqb_refl.
  f_equal; [|f_equal].
  - apply update_zones_set_other. intro H. apply Hnot. apply in_or_app.
    left. exact H.
  - apply update_zones_set_other. intro H. apply Hnot. apply in_or_app.
    right. exact H.
Qed.

(** ** Equations of the write path *)

Section WritePath.
Variable clock : nat -> timestamp.
Variables latitude longitude severity_score radius : Q.

Lemma update_zone_found (w : world) (z : Zone.row) :
    fetchone (zone_where latitude radius longitude radius) (zones (disk w)) = Some z ->
    update_zone clock latitude longitude severity_score radius w
    = match level_average (Zone.waste_level z) (Zone.photo_count z + 1)
                          severity_score with
      | inl e => Raise e (tick w)
      | inr average =>
          if forallb int64 [py_int average; Zone.photo_count z + 1; Zone.id z]
          then
            if reserved w then Raise OperationalError (tick w)
            else
              Return tt
                {| disk := with_zones (disk w)
                             (update_zones_set (py_int average)
                                (Zone.photo_count z + 1) (clock (ticks w))
                                (Zone.id z) (zones (disk w)));
                   ticks := S (ticks w);
                   reserved := false |}
          else Raise OverflowError (tick w)
      end.
Proof.
    intros Hz. unfold update_zone, bind, read_disk, datetime_now.
    rewrite Hz.
    destruct (level_average _ _ _) as [e|average]; [reflexivity|].
    unfold bind_ints.
    destruct (forallb int64 _); [|reflexivity].
    unfold ret, begin_write, commit, tick. cbn [reserved ticks disk].
    destruct (reserved w) eqn:Er; reflexivity.
Qed.

Lemma update_zone_missing (w : world) :
    fetchone (zone_where latitude radius longitude radius) (zones (disk w)) = None ->
    update_zone clock latitude longitude severity_score radius w
    = if forallb int64 [py_int severity_score; 1] then
        if reserved w then Raise OperationalError (tick w)
        else
          Return tt
            {| disk := insert_into_zones latitude longitude radius
                         (py_int severity_score) 1 (clock (ticks w)) (disk w);
               ticks := S (ticks w);
               reserved := false |}
      else Raise OverflowError (tick w).
Proof.
    intros Hz. unfold update_zone, bind, read_disk, datetime_now.
    rewrite Hz. unfold bind_ints.
    destruct (forallb int64 _); [|reflexivity].
    unfold ret, begin_write, commit, tick. cbn [reserved ticks disk].
    destruct (reserved w) eqn:Er; reflexivity.
Qed.

(** Whatever it does, [update_zone] reads the clock once, gives the lock
    back if it took it, and changes the file by a [zone_step]; it returns
    only if no other connection holds the lock. *)
Lemma update_zone_step (w : world) :
    let o := update_zone clock latitude longitude severity_score radius w in
    zone_step latitude longitude severity_score radius (clock (ticks w))
              (disk w) (disk (world_of o))
    /\ ticks (world_of o) = S (ticks w)
    /\ reserved (world_of o) = reserved w
    /\ (result_of o = None -> world_of o = tick w)
    /\ (result_of o = Some tt -> reserved w = false).
Proof.
    cbv zeta.
    destruct (fetchone (zone_where latitude radius longitude radius) (zones (disk w)))
      as [z|] eqn:Hz.
    - rewrite (update_zone_found w z Hz).
      destruct (level_average _ _ _) as [e|average] eqn:Ea.
      + simpl. repeat split; try constructor; discriminate.
      + destruct (forallb int64 _) eqn:Ei.
        * destruct (reserved w) eqn:Er.
          -- simpl. repeat split; try constructor; try discriminate; auto.
          -- cbn [world_of disk ticks reserved result_of].
             split; [apply (step_update _ _ _ _ _ _ z average Hz Ea Ei)|].
             repeat split; discriminate.
        * simpl. repeat split; try constructor; discriminate.
    - rewrite (update_zone_missing w Hz).
      destruct (forallb int64 _) eqn:Ei.
      + destruct (reserved w) eqn:Er.
        * simpl. repeat split; try constructor; try discriminate; auto.
        * cbn [world_of disk ticks reserved result_of].
          split; [apply (step_insert _ _ _ _ _ _ Hz Ei)|].
          repeat split; discriminate.
      + simpl. repeat split; try constructor; discriminate.
Qed.

(** Under the lock of another connection [update_zone] fails and writes
    nothing. *)
Lemma update_zone_locked (w : world) :
    reserved w = true ->
    exists e,
      update_zone clock latitude longitude severity_score radius w
      = Raise e (tick w).
Proof.
    intro Hr.
    pose proof (update_zone_step w) as (_ & _ & _ & Hn & Hs). cbv zeta in Hn, Hs.
    destruct (update_zone clock latitude longitude severity_score radius w)
      as [[] w'|e w'].
    - specialize (Hs eq_refl). congruence.
    - exists e. simpl in Hn. rewrite (Hn eq_refl). reflexivity.
Qed.
End WritePath.

Lemma zone_step_photos (latitude longitude severity_score radius : Q)
    (ts : timestamp) (db db' : database) :
  zone_step latitude longitude severity_score radius ts db db' ->
  photos db' = photos db /\ photos_seq db' = photos_seq db.
Proof.
  intros [ | z average _ _ _ | _ _ ]; split; reflexivity.
Qed.

(** [add_photo] never returns: its [INSERT] holds the write lock while
    [update_zone] runs, so the zone update fails, the commit is skipped and
    the file stays as it was. *)
Lemma add_photo_raises (clock : nat -> timestamp) (image_path : string)
    (latitude longitude : Q) (waste_category : string)
    (severity_score confidence : Q) (w : world) :
  exists e,
    add_photo clock image_path latitude longitude waste_category
              severity_score confidence w
    = Raise e (if reserved w then tick w
               else {| disk := disk w; ticks := S (S (ticks w)); reserved := false |}).
Proof.
  unfold add_photo, bind, datetime_now, read_disk, begin_write.
  cbn [reserved ticks disk].
  destruct (reserved w) eqn:Er.
  - exists OperationalError. unfold tick. rewrite Er. reflexivity.
  - unfold dropping_connection.
    destruct (update_zone_locked clock latitude longitude severity_score
                default_radius
                {| disk := disk w; ticks := S (ticks w); reserved := true |}
                eq_refl) as (e & E).
    rewrite E. exists e. reflexivity.
Qed.

(** ** Sequences of calls *)

(** Every call changes the file by at most a [zone_step], and leaves the
    lock free if it was. *)
Lemma perform_step (clock : nat -> timestamp) (c : call) (w : world) :
  let w' := world_of (perform clock c w) in
  (disk w' = disk w
   \/ exists latitude longitude,
        c = call_update_zone latitude longitude (severity_of c) (radius_of c)
        /\ zone_step latitude longitude (severity_of c) (radius_of c)
                     (clock (ticks w)) (disk w) (disk w')
        /\ ticks w' = S (ticks w))
  /\ (reserved w = false -> reserved w' = false)
  /\ (ticks w <= ticks w' <= ticks w + 2)%nat.
Proof.
  destruct c as [image_path latitude longitude waste_category severity_score
                 confidence | latitude longitude severity_score radius];
    cbv zeta; cbn [perform].
  - destruct (add_photo_raises clock image_path latitude longitude waste_category
                severity_score confidence w) as (e & E).
    unfold bind. rewrite E. cbn [world_of].
    destruct (reserved w); cbn [disk reserved ticks tick].
    + split; [left; reflexivity|]. split; [discriminate | lia].
    + split; [left; reflexivity|]. split; [reflexivity | lia].
  - pose proof (update_zone_step clock latitude longitude severity_score radius w)
      as (Hs & Ht & Hr & _). cbv zeta in Hs, Ht, Hr.
    split; [|split].
    + right. exists latitude, longitude. cbn [severity_of radius_of].
      split; [reflexivity|]. split; [exact Hs | exact Ht].
    + intro H. rewrite Hr. exact H.
    + rewrite Ht. lia.
Qed.

Lemma run_app (clock : nat -> timestamp) (cs cs' : list call) (w : world) :
  run clock (cs ++ cs') w = run clock cs' (run clock cs w).
Proof.
  revert w. induction cs as [|c cs IH]; intro w; simpl; [reflexivity|].
  apply IH.
Qed.

Section RunInvariant.
Variable clock : nat -> timestamp.
(** The calls that keep the invariant, and the invariant of the file after
    a number of calls. *)
Variable good : call -> Prop.
Variable Inv : nat -> database -> Prop.
Hypothesis Inv_nothing : forall n db, Inv n db -> Inv (S n) db.
Hypothesis Inv_step :
    forall n latitude longitude severity_score radius ts db db',
      good (call_update_zone latitude longitude severity_score radius) ->
      Inv n db ->
      zone_step latitude longitude severity_score radius ts db db' ->
      Inv (S n) db'.


End RunInvariant.

(** ** Claims on the write path *)

(** C1 (defect in the code).  The claim asks for the running average
    [floor((L*c + s) / (c + 1))].  [update_zone] increments [photo_count]
    before it forms the average, so it computes [int((L*(c+1) + s) / (c+2))].
    A call of [update_zone] with severity 0 on the empty store creates a zone
    with [waste_level = 0] and [photo_count = 1]; a second call with severity
    10 in the same cell leaves it with [waste_level = 3] and
    [photo_count = 2], where the claimed formula gives 5. *)
Theorem update_zone_average_uses_incremented_count :
  let w1 := world_of (update_zone demo_clock lat_18_5204 lng_73_8567 0
                                  default_radius fresh) in
  let w2 := world_of (update_zone demo_clock lat_18_5205 lng_73_8568 10
                                  default_radius w1) in
  zones (disk w1)
  = [Zone.mk 1 lat_18_5204 lng_73_8567 default_radius 0 1
             "2024-03-01T10:00:00.000100"]
  /\ zones (disk w2)
     = [Zone.mk 1 lat_18_5204 lng_73_8567 default_radius 3 2
                "2024-03-01T10:00:00.004200"]
  /\ level_average 0 (1 + 1) 10 = inr (7505999378950827 # 2251799813685248)
  /\ Qfloor ((inject_Z (0 * 1) + 10) / inject_Z (1 + 1)) = 5.
Proof.
  vm_compute. repeat split; reflexivity.
Qed.

(** C2 (defect in the code).  [add_photo] never returns an identifier and
    never persists the report: in every world it raises, and the database
    file is as before.  Its [INSERT] holds the write lock while [update_zone]
    runs on a second connection, whose write then fails; nothing catches the
    exception and the commit is skipped.  On the empty store the exception is
    [OperationalError]. *)
Theorem add_photo_raises_and_loses_the_report :
  (forall clock image_path latitude longitude waste_category severity_score
          confidence w,
      exists e w',
        add_photo clock image_path latitude longitude waste_category
                  severity_score confidence w = Raise e w'
        /\ disk w' = disk w)
  /\ add_photo demo_clock "uploads/photo.jpg" lat_18_5204 lng_73_8567 "mixed" 8
               (1 # 2) fresh
     = Raise OperationalError {| disk := init_db; ticks := 2; reserved := false |}.
Proof.
  split.
  - intros clock image_path latitude longitude waste_category severity_score
           confidence w.
    destruct (add_photo_raises clock image_path latitude longitude waste_category
                severity_score confidence w) as (e & E).
    exists e. eexists. split; [exact E|]. destruct (reserved w); reflexivity.
  - vm_compute. reflexivity.
Qed.




(** ** Claims on zone lookup *)

Lemma ascending_split (l1 l2 : list Zone.row) (z : Zone.row) :
  ids_ascending (l1 ++ z :: l2) ->
  Forall (fun x => Zone.id x < Zone.id z) l1
  /\ Forall (fun x => Zone.id z < Zone.id x) l2.
Proof.
  unfold ids_ascending. induction l1 as [|a l1 IH]; simpl; intro H.
  - split; [constructor|]. apply StronglySorted_inv in H. destruct H as [_ H].
    rewrite Forall_forall in *. intros x Hx. apply H. apply in_map. exact Hx.
  - apply StronglySorted_inv in H. destruct H as [Hs Ha].
    destruct (IH Hs) as [H1 H2]. split; [|exact H2].
    constructor; [|exact H1].
    rewrite Forall_forall in Ha. apply Ha. rewrite map_app, in_app_iff.
    right. left. reflexivity.
Qed.

(** C5 (counterexample).  A zone is centred at latitude 0.005 and the
    location lies at latitude 2e-19, on the same meridian.  In exact
    arithmetic the location is strictly inside the cell of half-width 0.005.
    The code subtracts in doubles: the difference rounds to 0.005, which is
    not below the radius, and no zone is returned. *)
Lemma get_zone_by_location_rounds_the_difference :
  (forall z, In z (zones (disk edge_world)) ->
             cell_contains_exactly tiny_2e_19 0 default_radius z)
  /\ fsub default_radius tiny_2e_19 = Some default_radius
  /\ get_zone_by_location tiny_2e_19 0 default_radius edge_world
     = Return None edge_world.
Proof.
  split; [|split].
  - intros z [<-|[]]. vm_compute. split; reflexivity.
  - vm_compute. reflexivity.
  - vm_compute. reflexivity.
Qed.

(** C5 (amended).  On a table in ascending-id scan order,
    [get_zone_by_location] leaves the world as it is and returns the zone of
    smallest id that passes the containment test: the differences
    [center_lat - lat] and [center_lng - lng], each rounded to a double, are
    strictly below [radius] in absolute value.  It returns [None] exactly
    when no zone passes.  The row is the one [update_zone] selects with the
    same arguments. *)
Theorem get_zone_by_location_first_containing :
  forall latitude longitude radius w,
    ids_ascending (zones (disk w)) ->
    exists found,
      get_zone_by_location latitude longitude radius w = Return found w
      /\ found = fetchone (zone_where latitude radius longitude radius) (zones (disk w))
      /\ (forall z,
             found = Some z <->
             In z (zones (disk w))
             /\ cell_contains latitude longitude radius z
             /\ (forall z', In z' (zones (disk w)) -> Zone.id z' < Zone.id z ->
                            ~ cell_contains latitude longitude radius z'))
      /\ (found = None <->
          forall z, In z (zones (disk w)) ->
                    ~ cell_contains latitude longitude radius z).
Proof.
  intros latitude longitude radius w Hasc.
  set (f := zone_where latitude radius longitude radius).
  exists (fetchone f (zones (disk w))).
  split; [reflexivity|]. split; [reflexivity|].
  assert (Hfirst : forall z, fetchone f (zones (disk w)) = Some z ->
            In z (zones (disk w))
            /\ cell_contains latitude longitude radius z
            /\ (forall z', In z' (zones (disk w)) -> Zone.id z' < Zone.id z ->
                           ~ cell_contains latitude longitude radius z')).
  { intros z Hz. destruct (fetchone_split f _ z Hz) as (l1 & l2 & El & Fz & Hl1).
    rewrite El in Hasc. destruct (ascending_split l1 l2 z Hasc) as [_ Hl2].
    rewrite El. split; [|split].
    - apply in_elt.
    - apply zone_where_contains. exact Fz.
    - intros z' Hin Hlt. apply zone_where_outside.
      apply in_app_or in Hin. destruct Hin as [Hin|[<-|Hin]].
      + apply Hl1. exact Hin.
      + lia.
      + rewrite Forall_forall in Hl2. specialize (Hl2 z' Hin). lia. }
  split.
  - intro z. split; [apply Hfirst|].
    intros (Hin & Hc & Hmin).
    destruct (fetchone f (zones (disk w))) as [z0|] eqn:E.
    + destruct (Hfirst z0 eq_refl) as (Hin0 & Hc0 & Hmin0).
      destruct (Z.lt_total (Zone.id z0) (Zone.id z)) as [Hlt|[Heq|Hgt]].
      * exfalso. exact (Hmin z0 Hin0 Hlt Hc0).
      * destruct (fetchone_split f _ z0 E) as (l1 & l2 & El & _ & _).
        rewrite El in Hasc, Hin.
        destruct (ascending_split l1 l2 z0 Hasc) as [Hl1 Hl2].
        rewrite Forall_forall in Hl1, Hl2.
        apply in_app_or in Hin. destruct Hin as [Hin|[->|Hin]].
        -- specialize (Hl1 z Hin). lia.
        -- reflexivity.
        -- specialize (Hl2 z Hin). lia.
      * exfalso. exact (Hmin0 z Hin Hgt Hc).
    + exfalso. pose proof (proj1 (fetchone_none f _) E z Hin) as Hf.
      apply zone_where_outside in Hf. exact (Hf Hc).
  - rewrite fetchone_none. split; intros H z Hz.
    + apply zone_where_outside. apply H. exact Hz.
    + apply zone_where_outside. apply H. exact Hz.
Qed.

Lemma get_zone_by_location_first_containing_witness :
  let w := run demo_clock
               [call_update_zone lat_18_5204 lng_73_8567 8 default_radius;
                call_update_zone lat_18_6 lng_73_9 5 default_radius] fresh in
  exists found,
    get_zone_by_location lat_18_5205 lng_73_8568 default_radius w
    = Return found w
    /\ option_map Zone.id found = Some 1.
Proof.
  intro w.
  destruct (get_zone_by_location_first_containing
              lat_18_5205 lng_73_8568 default_radius w)
    as (found & H1 & H2 & _).
  - vm_compute. repeat constructor.
  - exists found. split; [exact H1|]. rewrite H2. vm_compute. reflexivity.
Defined.

(** ** [ORDER BY ... DESC] *)

Section OrderByFacts.
Context {A K : Type} (key : A -> K) (ltb eqb : K -> K -> bool).

Lemma insert_desc_perm (x : A) (l : list A) :
    Permutation (insert_desc key ltb x l) (x :: l).
Proof.
    induction l as [|y l IH]; simpl; [reflexivity|].
    destruct (ltb (key x) (key y)); [|reflexivity].
    rewrite IH. apply perm_swap.
Qed.

Lemma order_by_desc_perm (l : list A) :
    Permutation (order_by_desc key ltb l) l.
Proof.
    induction l as [|x l IH]; simpl; [reflexivity|].
    rewrite insert_desc_perm. constructor. exact IH.
Qed.

Lemma order_by_desc_map {B} (g : B -> A) (key' : B -> K) (l : list B) :
    (forall b, key (g b) = key' b) ->
    order_by_desc key ltb (map g l) = map g (order_by_desc key' ltb l).
Proof.
    intro Hk. induction l as [|x l IH]; simpl; [reflexivity|].
    rewrite IH. generalize (order_by_desc key' ltb l). clear IH.
    intro s. induction s as [|y s IHs]; simpl; [reflexivity|].
    rewrite !Hk. destruct (ltb (key' x) (key' y)); simpl; congruence.
Qed.

(** Rows that share a key come out in scan order. *)
Section Stable.
Hypothesis ltb_irrefl : forall k, ltb k k = false.
Hypothesis eqb_eq : forall a b, eqb a b = true -> a = b.

Lemma insert_desc_stable (k : K) (x : A) (l : list A) :
      filter (fun a => eqb (key a) k) (insert_desc key ltb x l)
      = filter (fun a => eqb (key a) k) (x :: l).
Proof.
      induction l as [|y l IH]; [reflexivity|].
      simpl insert_desc. destruct (ltb (key x) (key y)) eqn:E; [|reflexivity].
      simpl in *. rewrite IH.
      destruct (eqb (key x) k) eqn:Ex; [|reflexivity].
      destruct (eqb (key y) k) eqn:Ey; [|reflexivity].
      apply eqb_eq in Ex, Ey. rewrite Ex, Ey, ltb_irrefl in E. discriminate.
Qed.

Lemma order_by_desc_stable (k : K) (l : list A) :
      filter (fun a => eqb (key a) k) (order_by_desc key ltb l)
      = filter (fun a => eqb (key a) k) l.
Proof.
      induction l as [|x l IH]; [reflexivity|].
      simpl order_by_desc. rewrite insert_desc_stable. simpl. rewrite IH.
      reflexivity.
Qed.
End Stable.

(** The result is descending: no row has a key below that of a later row. *)
Section Sorted.
Hypothesis ltb_asym : forall a b, ltb a b = true -> ltb b a = false.
Hypothesis geb_trans :
      forall a b c, ltb a b = false -> ltb b c = false -> ltb a c = false.

Let desc (a b : A) : Prop := ltb (key a) (key b) = false.

Lemma insert_desc_sorted (x : A) (l : list A) :
      StronglySorted desc l -> StronglySorted desc (insert_desc key ltb x l).
Proof.
      induction l as [|y l IH]; simpl; intro Hs.
      - constructor; constructor.
      - apply StronglySorted_inv in Hs. destruct Hs as [Hs Hy].
        destruct (ltb (key x) (key y)) eqn:E.
        + constructor; [apply IH; exact Hs|].
          rewrite Forall_forall in *. intros z Hz.
          apply (Permutation_in _ (insert_desc_perm x l)) in Hz.
          destruct Hz as [<-|Hz].
          * apply ltb_asym. exact E.
          * apply Hy. exact Hz.
        + constructor; [constructor; assumption|].
          constructor; [exact E|].
          rewrite Forall_forall in *. intros z Hz.
          apply (geb_trans _ (key y)); [exact E | apply Hy; exact Hz].
Qed.

Lemma order_by_desc_sorted (l : list A) :
      StronglySorted desc (order_by_desc key ltb l).
Proof.
      induction l as [|x l IH]; simpl.
      - constructor.
      - apply insert_desc_sorted. exact IH.
Qed.
End Sorted.
End OrderByFacts.

Lemma StronglySorted_weaken {A} (R R' : A -> A -> Prop) (l : list A) :
  (forall a b, R a b -> R' a b) -> StronglySorted R l -> StronglySorted R' l.
Proof.
  intros HR Hs. induction Hs as [|a l Hs IH Ha]; constructor.
  - exact IH.
  - rewrite Forall_forall in *. intros b Hb. apply HR, Ha, Hb.
Qed.

(** Byte-wise order of [TEXT] values. *)
Lemma string_ltb_asym (a b : string) : String.ltb a b = true -> String.ltb b a = false.
Proof.
  unfold String.ltb. rewrite (String.compare_antisym b a).
  destruct (String.compare a b); simpl; congruence.
Qed.

Lemma string_compare_trans (a b c : string) :
  String.compare a b <> Lt -> String.compare b c <> Lt -> String.compare a c <> Lt.
Proof.
  revert b c. induction a as [|x a IH]; intros [|y b] [|z c]; simpl;
    try congruence.
  unfold Ascii.compare.
  destruct (N.compare_spec (N_of_ascii x) (N_of_ascii y)) as [Exy|Lxy|Gxy];
    destruct (N.compare_spec (N_of_ascii y) (N_of_ascii z)) as [Eyz|Lyz|Gyz];
    destruct (N.compare_spec (N_of_ascii x) (N_of_ascii z)) as [Exz|Lxz|Gxz];
    try congruence; try lia.
  apply IH.
Qed.

Lemma string_geb_trans (a b c : string) :
  String.ltb a b = false -> String.ltb b c = false -> String.ltb a c = false.
Proof.
  unfold String.ltb. intros Hab Hbc.
  pose proof (string_compare_trans a b c) as H.
  destruct (String.compare a b); try discriminate;
    destruct (String.compare b c); try discriminate;
    destruct (String.compare a c); try reflexivity;
    exfalso; apply H; congruence.
Qed.

Lemma string_ltb_irrefl (a : string) : String.ltb a a = false.
Proof.
  destruct (String.ltb a a) eqn:E; [|reflexivity].
  pose proof (string_ltb_asym a a E). congruence.
Qed.

Lemma string_ltb_false_leb (a b : string) :
  String.ltb a b = false -> String.leb b a = true.
Proof.
  unfold String.ltb, String.leb. rewrite (String.compare_antisym a b).
  destruct (String.compare b a); simpl; congruence.
Qed.

Section FilterOrderBy.
Context {A K : Type} (key : A -> K) (ltb : K -> K -> bool) (P : A -> bool).
Hypothesis geb_trans :
    forall a b c, ltb a b = false -> ltb b c = false -> ltb a c = false.

Lemma insert_desc_head (x : A) (l : list A) :
    Forall (fun y => ltb (key x) (key y) = false) l ->
    insert_desc key ltb x l = x :: l.
Proof.
    destruct l as [|y l]; simpl; [reflexivity|].
    intro H. apply Forall_inv in H. rewrite H. reflexivity.
Qed.

Lemma filter_insert_desc (x : A) (l : list A) :
    StronglySorted (fun a b => ltb (key a) (key b) = false) l ->
    filter P (insert_desc key ltb x l)
    = if P x then insert_desc key ltb x (filter P l) else filter P l.
Proof.
    induction l as [|y l IH]; intro Hs.
    - simpl. destruct (P x); reflexivity.
    - apply StronglySorted_inv in Hs. destruct Hs as [Hs Hy].
      simpl insert_desc. destruct (ltb (key x) (key y)) eqn:E.
      + simpl. rewrite (IH Hs).
        destruct (P y), (P x); simpl; try rewrite E; reflexivity.
      + change (filter P (x :: y :: l))
          with (if P x then x :: filter P (y :: l) else filter P (y :: l)).
        destruct (P x); [|reflexivity].
        symmetry. apply insert_desc_head.
        apply Forall_forall. intros z Hz. apply filter_In in Hz.
        destruct Hz as [[<-|Hz] _]; [exact E|].
        rewrite Forall_forall in Hy.
        apply (geb_trans _ (key y)); [exact E | apply Hy; exact Hz].
Qed.

Hypothesis ltb_asym : forall a b, ltb a b = true -> ltb b a = false.

(** Selecting before ordering is selecting from the ordered listing. *)
Lemma order_by_desc_filter (l : list A) :
    order_by_desc key ltb (filter P l) = filter P (order_by_desc key ltb l).
Proof.
    induction l as [|x l IH]; [reflexivity|].
    simpl order_by_desc at 2.
    rewrite filter_insert_desc
      by (apply order_by_desc_sorted; [exact ltb_asym | exact geb_trans]).
    simpl filter. destruct (P x); simpl; rewrite IH; reflexivity.
Qed.
End FilterOrderBy.

(** ** Claims on the listings *)

(** C7 (counterexample).  Two zones of equal level are listed in scan order,
    the one updated earlier first. *)
Lemma get_all_zones_ties_stay_in_scan_order :
  let w := run demo_clock two_level_five_updates fresh in
  let older := Zone.mk 1 lat_18_5204 lng_73_8567 default_radius 5 1
                       "2024-03-01T10:00:00.000100" in
  let newer := Zone.mk 2 lat_18_6 lng_73_9 default_radius 5 1
                       "2024-03-01T10:00:00.004200" in
  result_of (get_all_zones w) = Some [older; newer]
  /\ String.ltb (Zone.last_updated older) (Zone.last_updated newer) = true
  /\ ~ StronglySorted by_level_then_recency [older; newer].
Proof.
  split; [vm_compute; reflexivity|]. split; [vm_compute; reflexivity|].
  intro H. apply StronglySorted_inv in H. destruct H as [_ H].
  apply Forall_inv in H. destruct H as [H|[_ H]].
  - simpl in H. lia.
  - vm_compute in H. discriminate.
Qed.

(** C7 (amended).  [get_all_zones] returns all zone rows ordered by
    [waste_level] descending; rows of equal [waste_level] stay in scan order
    (ascending id), whatever their [last_updated].  It writes nothing. *)
Theorem get_all_zones_by_level_desc :
  forall w,
  exists listed,
    get_all_zones w = Return listed w
    /\ Permutation listed (zones (disk w))
    /\ StronglySorted by_level_desc listed
    /\ (forall level,
           filter (fun z => Zone.waste_level z =? level) listed
           = filter (fun z => Zone.waste_level z =? level) (zones (disk w))).
Proof.
  intro w. exists (order_by_desc Zone.waste_level Z.ltb (zones (disk w))).
  split; [reflexivity|]. split; [apply order_by_desc_perm|]. split.
  - apply (StronglySorted_weaken
             (fun a b => Z.ltb (Zone.waste_level a) (Zone.waste_level b) = false)).
    + unfold by_level_desc. intros a b H. apply Z.ltb_ge in H. lia.
    + apply order_by_desc_sorted.
      * intros a b H. apply Z.ltb_lt in H. apply Z.ltb_ge. lia.
      * intros a b c H1 H2. apply Z.ltb_ge in H1, H2. apply Z.ltb_ge. lia.
  - intro level. apply order_by_desc_stable.
    + apply Z.ltb_irrefl.
    + intros a b H. apply Z.eqb_eq. exact H.
Qed.

(** C8.  [get_photos_in_bounds] returns exactly the photo rows with
    [south <= latitude <= north] and [west <= longitude <= east], bounds
    included, newest [timestamp] first; [get_all_photos] returns every row in
    that order, and the bounded listing is the full listing restricted to the
    box.  Neither writes. *)
Theorem get_photos_in_bounds_exact :
  forall north south east west w,
  exists listed everything,
    get_photos_in_bounds north south east west w = Return listed w
    /\ get_all_photos w = Return everything w
    /\ (forall p, In p listed <->
                  In p (photos (disk w)) /\ in_bounds north south east west p)
    /\ Permutation listed (filter (bounds_where north south east west) (photos (disk w)))
    /\ StronglySorted newest_first listed
    /\ Permutation everything (photos (disk w))
    /\ StronglySorted newest_first everything
    /\ listed = filter (bounds_where north south east west) everything.
Proof.
  intros north south east west w.
  set (box := bounds_where north south east west).
  exists (order_by_desc Photo.timestamp String.ltb (filter box (photos (disk w)))),
         (order_by_desc Photo.timestamp String.ltb (photos (disk w))).
  assert (Hsorted : forall l,
             StronglySorted newest_first (order_by_desc Photo.timestamp String.ltb l)).
  { intro l.
    apply (StronglySorted_weaken
             (fun a b => String.ltb (Photo.timestamp a) (Photo.timestamp b) = false)).
    - intros a b. apply string_ltb_false_leb.
    - apply order_by_desc_sorted; [exact string_ltb_asym | exact string_geb_trans]. }
  split; [reflexivity|]. split; [reflexivity|].
  split; [|split; [|split; [|split; [|split]]]].
  - intro p. split.
    + intro H. apply (Permutation_in _ (order_by_desc_perm _ _ _)) in H.
      apply filter_In in H. destruct H as [Hin Hb].
      apply bounds_where_in_bounds in Hb. split; assumption.
    + intros [Hin Hb].
      apply (Permutation_in _ (Permutation_sym (order_by_desc_perm _ _ _))).
      apply filter_In. split; [exact Hin|]. apply bounds_where_in_bounds. exact Hb.
  - apply order_by_desc_perm.
  - apply Hsorted.
  - apply order_by_desc_perm.
  - apply Hsorted.
  - apply order_by_desc_filter; [exact string_geb_trans | exact string_ltb_asym].
Qed.


(** ** Invariants of the zone columns *)

Lemma zone_ok_later (n : nat) (z : Zone.row) : zone_ok n z -> zone_ok (S n) z.
Proof.
  unfold zone_ok. intros (Hl & Hc & Hi). repeat split; lia.
Qed.

Lemma file_ok_later (n : nat) (db : database) : file_ok n db -> file_ok (S n) db.
Proof.
  unfold file_ok. intros [Hs Hz]. split; [lia|].
  apply (Forall_impl _ (zone_ok_later n) Hz).
Qed.

Lemma file_ok_step (n : nat) (latitude longitude severity_score radius : Q)
    (ts : timestamp) (db db' : database) :
  severity_ok (call_update_zone latitude longitude severity_score radius) ->
  file_ok n db ->
  zone_step latitude longitude severity_score radius ts db db' ->
  file_ok (S n) db'.
Proof.
  intros [Hs0 Hs10] Hok Hstep. simpl in Hs0, Hs10.
  pose proof (file_ok_later n db Hok) as [Hseq Hall].
  destruct Hstep as [ | z average Hz Ha _ | Hz _ ].
  - split; assumption.
  - split; [exact Hseq|]. cbn [zones with_zones].
    destruct (fetchone_In _ _ _ Hz) as [Hin _].
    destruct Hok as [_ Hold]. rewrite Forall_forall in Hold.
    destruct (Hold z Hin) as (Hl & Hc & _).
    assert (Hc1 : 1 <= Zone.photo_count z + 1) by lia.
    destruct (level_average_range _ _ _ _ Hl Hc1 Hs0 Hs10 Ha) as [Ha0 Ha1].
    destruct (py_int_average average Ha0 Ha1) as [_ Hr].
    apply update_zones_set_Forall; [exact Hall|].
    intros x Hx _. rewrite Forall_forall in Hall.
    destruct (Hall x Hx) as (_ & _ & Hi).
    unfold zone_ok. cbn [Zone.waste_level Zone.photo_count Zone.id].
    repeat split; lia.
  - assert (Hids : Forall (fun i => i <= Z.of_nat n) (map Zone.id (zones db))).
    { destruct Hok as [_ Hold]. apply Forall_map.
      apply (Forall_impl _ (fun z (H : zone_ok n z) => proj2 (proj2 (proj2 H))) Hold). }
    destruct Hok as [Hseq0 _].
    pose proof (fold_max_upper (zones_seq db) (Z.of_nat n) _ (proj2 Hseq0) Hids) as Hup.
    pose proof (proj1 (fold_max_bounds (zones_seq db) (map Zone.id (zones db)))) as Hlo.
    unfold insert_into_zones, file_ok, next_rowid. cbn [zones zones_seq].
    split; [lia|]. apply Forall_app. split; [exact Hall|].
    constructor; [|constructor].
    unfold zone_ok. cbn [Zone.waste_level Zone.photo_count Zone.id].
    pose proof (py_int_range severity_score Hs0 Hs10). repeat split; lia.
Qed.


Lemma int64_small (n : Z) : 0 <= n < 2 ^ 63 -> int64 n = true.
Proof. intro H. apply int64_range. lia. Qed.

(** On a store that holds the invariant, with the lock free, a zone update
    with a severity in [0, 10] returns. *)
Lemma update_zone_returns (clock : nat -> timestamp)
    (latitude longitude severity_score radius : Q) (n : nat) (w : world) :
  file_ok n (disk w) -> reserved w = false -> Z.of_nat n < 2 ^ 62 ->
  (0 <= severity_score)%Q -> (severity_score <= 10)%Q ->
  match fetchone (zone_where latitude radius longitude radius) (zones (disk w)) with
  | Some z =>
      exists average,
        level_average (Zone.waste_level z) (Zone.photo_count z + 1) severity_score
        = inr average
        /\ (0 <= average)%Q
        /\ update_zone clock latitude longitude severity_score radius w
           = Return tt
               {| disk := with_zones (disk w)
                            (update_zones_set (Qfloor average)
                               (Zone.photo_count z + 1) (clock (ticks w))
                               (Zone.id z) (zones (disk w)));
                  ticks := S (ticks w);
                  reserved := false |}
  | None =>
      update_zone clock latitude longitude severity_score radius w
      = Return tt
          {| disk := insert_into_zones latitude longitude radius
                       (Qfloor severity_score) 1 (clock (ticks w)) (disk w);
             ticks := S (ticks w);
             reserved := false |}
  end.
Proof.
  intros [Hseq Hall] Hr Hn Hs0 Hs10.
  destruct (fetchone (zone_where latitude radius longitude radius) (zones (disk w)))
    as [z|] eqn:Hz.
  - destruct (fetchone_In _ _ _ Hz) as [Hin _].
    rewrite Forall_forall in Hall. destruct (Hall z Hin) as (Hl & Hc & Hi).
    assert (Hc1 : 1 <= Zone.photo_count z + 1 <= 2 ^ 63) by lia.
    destruct (level_average_defined (Zone.waste_level z) (Zone.photo_count z + 1)
                severity_score Hl Hc1 Hs0 Hs10) as (average & Ea & Ha0 & Ha1).
    destruct (py_int_average average Ha0 Ha1) as [Ef Hrange].
    exists average. split; [exact Ea|]. split; [exact Ha0|].
    rewrite (update_zone_found clock _ _ _ _ w z Hz), Ea. cbn [forallb].
    rewrite (int64_small (py_int average)) by lia.
    rewrite (int64_small (Zone.photo_count z + 1)) by lia.
    rewrite (int64_small (Zone.id z)) by lia.
    cbn [andb]. rewrite Hr, Ef. reflexivity.
  - rewrite (update_zone_missing clock _ _ _ _ w Hz). cbn [forallb].
    pose proof (py_int_range severity_score Hs0 Hs10) as Hrange.
    rewrite (int64_small (py_int severity_score)) by lia.
    cbn [andb int64]. rewrite Hr, (py_int_floor severity_score Hs0).
    reflexivity.
Qed.




(** ** Stores that agree up to a column *)

Section Agree.
Variable Rr : Q -> Q -> Prop.
Variable Rt : string -> string -> Prop.
Hypothesis Rr_refl : forall q, Rr q q.

Let R := zone_agree Rr Rt.





Section Step.
Variables clock1 clock2 : nat -> timestamp.



End Step.
End Agree.





(** ** Claims on replays *)







(** ** Frame of the zone update *)

(** C10.  On a table with unique ids, a call of [update_zone] leaves the
    [photos] table as it is, and the [zones] table is then either unchanged,
    or extended by one appended row, or equal to the old one except at one
    row, which keeps its [id], [center_lat], [center_lng] and [radius]. *)
Theorem update_zone_frame :
  forall clock latitude longitude severity_score radius w,
    NoDup (map Zone.id (zones (disk w))) ->
    let w' := world_of (update_zone clock latitude longitude severity_score radius w) in
    photos (disk w') = photos (disk w)
    /\ photos_seq (disk w') = photos_seq (disk w)
    /\ (zones (disk w') = zones (disk w)
        \/ (exists created, zones (disk w') = zones (disk w) ++ [created])
        \/ (exists before z after new_level photo_count ts,
               zones (disk w) = before ++ z :: after
               /\ zones (disk w')
                  = before
                    ++ Zone.mk (Zone.id z) (Zone.center_lat z) (Zone.center_lng z)
                               (Zone.radius z) new_level photo_count ts
                    :: after)).
Proof.
  intros clock latitude longitude severity_score radius w Hdup w'.
  destruct (update_zone_step clock latitude longitude severity_score radius w)
    as (Hstep & _). cbv zeta in Hstep. fold w' in Hstep.
  destruct (zone_step_photos _ _ _ _ _ _ _ Hstep) as [Hp Hs].
  split; [exact Hp|]. split; [exact Hs|].
  inversion Hstep as [E | z average Hz _ _ E | _ _ E].
  - left. reflexivity.
  - right. right. cbn [zones with_zones].
    destruct (fetchone_split _ _ z Hz) as (before & after & El & _ & _).
    exists before, z, after. eexists. eexists. eexists.
    split; [exact El|]. rewrite El in Hdup |- *.
    apply update_zones_set_at. exact Hdup.
  - right. left. eexists. reflexivity.
Qed.

Lemma update_zone_frame_witness :
  let w := one_zone_world default_radius in
  let w' := world_of (update_zone demo_clock lat_18_5205 lng_73_8568 4
                                  default_radius w) in
  photos (disk w') = photos (disk w)
  /\ zones (disk w')
     = [Zone.mk 1 lat_18_5204 lng_73_8567 default_radius 6 2
                "2024-03-01T10:05:00.000100"].
Proof.
  intros w w'.
  destruct (update_zone_frame demo_clock lat_18_5205 lng_73_8568 4
              default_radius w) as (Hp & _ & _).
  - simpl. constructor; [intros [] | constructor].
  - split; [exact Hp|]. vm_compute. reflexivity.
Defined.

(** ** The scan order is the id order *)

Lemma ascending_snoc (ids : list Z) (i : Z) :
  StronglySorted Z.lt ids -> (forall j, In j ids -> j < i) ->
  StronglySorted Z.lt (ids ++ [i]).
Proof.
  induction 1 as [|a ids Hs IH Ha]; intro Hi; simpl.
  - constructor; [constructor | constructor].
  - constructor.
    + apply IH. intros j Hj. apply Hi. right. exact Hj.
    + apply Forall_app. split; [exact Ha|]. constructor; [|constructor].
      apply Hi. left. reflexivity.
Qed.

Lemma ascending_NoDup (ids : list Z) : StronglySorted Z.lt ids -> NoDup ids.
Proof.
  induction 1 as [|a ids _ IH Ha]; constructor; [|exact IH].
  intro Hin. rewrite Forall_forall in Ha. specialize (Ha a Hin). lia.
Qed.

Lemma zone_step_ids_ascending (latitude longitude severity_score radius : Q)
    (ts : timestamp) (db db' : database) :
  zone_step latitude longitude severity_score radius ts db db' ->
  ids_ascending (zones db) -> ids_ascending (zones db').
Proof.
  unfold ids_ascending. intros [ | z average _ _ _ | _ _ ] H.
  - exact H.
  - cbn [zones with_zones]. rewrite update_zones_set_ids. exact H.
  - unfold insert_into_zones. cbn [zones]. rewrite map_app. simpl.
    apply ascending_snoc; [exact H|]. intros j Hj. apply next_rowid_fresh. exact Hj.
Qed.

Lemma run_ids_ascending (clock : nat -> timestamp) (cs : list call) (w : world) :
  ids_ascending (zones (disk w)) -> ids_ascending (zones (disk (run clock cs w))).
Proof.
  revert w. induction cs as [|c cs IH]; intros w H; simpl; [exact H|].
  apply IH.
  destruct (perform_step clock c w) as ([E|(latitude & longitude & _ & Hs & _)] & _).
  - rewrite E. exact H.
  - exact (zone_step_ids_ascending _ _ _ _ _ _ _ Hs H).
Qed.

(** * Further properties of [database.py] *)

(** ** [get_photo_by_id] *)

Lemma NoDup_map_eq {A B} (f : A -> B) (l : list A) (a b : A) :
  NoDup (map f l) -> In a l -> In b l -> f a = f b -> a = b.
Proof.
  induction l as [|x l IH]; simpl; intros Hd Ha Hb E; [contradiction|].
  inversion Hd as [|? ? Hx Hd']; subst.
  destruct Ha as [->|Ha], Hb as [->|Hb].
  - reflexivity.
  - exfalso. apply Hx. rewrite E. apply in_map. exact Hb.
  - exfalso. apply Hx. rewrite <- E. apply in_map. exact Ha.
  - apply IH; assumption.
Qed.

(** X3.  For an identifier that fits in 64 bits, on a [photos] table with
    unique identifiers, [get_photo_by_id] returns the one row that carries
    the identifier, returns [None] exactly when no row carries it, and leaves
    the store as it is.  For any other identifier the statement cannot be
    bound and the call raises [OverflowError]. *)
Theorem get_photo_by_id_finds_the_row :
  forall photo_id w,
    NoDup (map Photo.id (photos (disk w))) ->
    (int64 photo_id = true ->
     exists found,
       get_photo_by_id photo_id w = Return found w
       /\ (forall p, found = Some p <->
                     In p (photos (disk w)) /\ Photo.id p = photo_id)
       /\ (found = None <->
           forall p, In p (photos (disk w)) -> Photo.id p <> photo_id))
    /\ (int64 photo_id = false ->
        get_photo_by_id photo_id w = Raise OverflowError w).
Proof.
  intros photo_id w Hdup. split; intro Hi.
  - set (f := fun p => Photo.id p =? photo_id).
    exists (fetchone f (photos (disk w))). split; [|split].
    + unfold get_photo_by_id, bind, bind_ints. cbn [forallb]. rewrite Hi.
      reflexivity.
    + intro p. split.
      * intro E. apply fetchone_In in E.
        destruct E as [Hin Hf]. split; [exact Hin|]. apply Z.eqb_eq. exact Hf.
      * intros [Hin Hid].
        destruct (fetchone f (photos (disk w))) as [q|] eqn:E.
        -- apply fetchone_In in E. destruct E as [Hq Hf].
           apply Z.eqb_eq in Hf. f_equal.
           apply (NoDup_map_eq Photo.id (photos (disk w))); try assumption.
           rewrite Hf, Hid. reflexivity.
        -- exfalso. pose proof (proj1 (fetchone_none f _) E p Hin) as Hf.
           apply Z.eqb_neq in Hf. exact (Hf Hid).
    + rewrite fetchone_none. split; intros H p Hp.
      * apply Z.eqb_neq. apply H. exact Hp.
      * apply Z.eqb_neq. apply H. exact Hp.
  - unfold get_photo_by_id, bind, bind_ints. cbn [forallb]. rewrite Hi.
    reflexivity.
Qed.

Lemma get_photo_by_id_finds_the_row_witness :
  (exists found,
      get_photo_by_id 2 two_photo_world = Return found two_photo_world
      /\ option_map Photo.image_path found = Some "uploads/0002_b.jpg"%string)
  /\ get_photo_by_id (2 ^ 63) two_photo_world = Raise OverflowError two_photo_world.
Proof.
  destruct (get_photo_by_id_finds_the_row 2 two_photo_world) as [H _].
  { vm_compute. repeat constructor; simpl; intuition discriminate. }
  destruct (get_photo_by_id_finds_the_row (2 ^ 63) two_photo_world) as [_ H'].
  { vm_compute. repeat constructor; simpl; intuition discriminate. }
  split.
  - destruct (H eq_refl) as (found & E & Hsome & _). exists found.
    split; [exact E|].
    assert (Hf : found = Some (Photo.mk 2 "uploads/0002_b.jpg" lat_18_6 lng_73_9
                                 "2024-03-01T10:05:00.000100" "plastic" 5 (1 # 2)
                                 false)).
    { apply Hsome. split; [right; left; reflexivity | reflexivity]. }
    rewrite Hf. reflexivity.
  - apply H'. reflexivity.
Defined.

(** ** The [zones] table along the write path *)

Lemma total_count_app (l1 l2 : list Zone.row) :
  total_count (l1 ++ l2) = total_count l1 + total_count l2.
Proof.
  induction l1 as [|a l1 IH]; simpl; [reflexivity|]. rewrite IH. lia.
Qed.

Lemma zone_step_count (latitude longitude severity_score radius : Q)
    (ts : timestamp) (db db' : database) :
  ids_ascending (zones db) ->
  zone_step latitude longitude severity_score radius ts db db' ->
  db' = db \/ total_count (zones db') = total_count (zones db) + 1.
Proof.
  intros Hasc [ | z average Hz _ _ | _ _ ].
  - left. reflexivity.
  - right. cbn [zones with_zones].
    destruct (fetchone_split _ _ z Hz) as (before & after & El & _ & _).
    rewrite El in *.
    rewrite update_zones_set_at by (apply ascending_NoDup; exact Hasc).
    rewrite !total_count_app. simpl. lia.
  - right. unfold insert_into_zones. cbn [zones].
    rewrite total_count_app. simpl. lia.
Qed.

(** X4.  Every zone update that returns is counted exactly once.  On a table
    with ascending identifiers, [update_zone] raises the sum of the
    [photo_count] column by exactly one when it returns, and leaves the file
    as it is when it raises.  After calls of [update_zone] with severities in
    [0, 10] on the empty store, the sum is the number of calls. *)
Theorem update_zone_counts_every_call :
  forall clock,
    (forall latitude longitude severity_score radius w,
        ids_ascending (zones (disk w)) ->
        match update_zone clock latitude longitude severity_score radius w with
        | Return _ w' =>
            total_count (zones (disk w')) = total_count (zones (disk w)) + 1
        | Raise _ w' => disk w' = disk w
        end)
    /\ (forall cs,
           Forall severity_ok cs ->
           Forall (fun c => is_add_photo c = false) cs ->
           Z.of_nat (List.length cs) < 2 ^ 62 ->
           total_count (zones (disk (run clock cs fresh)))
           = Z.of_nat (List.length cs)).
Proof.
  intro clock. split.
  - intros latitude longitude severity_score radius w Hasc.
    pose proof (update_zone_step clock latitude longitude severity_score radius w)
      as (Hstep & _ & _ & Hn & _). cbv zeta in Hstep, Hn.
    destruct (update_zone clock latitude longitude severity_score radius w)
      as [[] w'|e w'] eqn:E; cbn [world_of result_of] in Hstep, Hn.
    + destruct (zone_step_count _ _ _ _ _ _ _ Hasc Hstep) as [Hd|Hd]; [|exact Hd].
      exfalso.
      destruct (fetchone (zone_where latitude radius longitude radius)
                         (zones (disk w))) as [z|] eqn:Hz.
      * rewrite (update_zone_found clock _ _ _ _ w z Hz) in E.
        destruct (level_average _ _ _); [discriminate|].
        destruct (forallb int64 _); [|discriminate].
        destruct (reserved w); [discriminate|].
        injection E as <-. cbn [disk] in Hd.
        apply (f_equal (fun db => total_count (zones db))) in Hd.
        cbn [zones with_zones] in Hd.
        destruct (fetchone_split _ _ z Hz) as (before & after & El & _ & _).
        rewrite El in *.
        rewrite update_zones_set_at in Hd by (apply ascending_NoDup; exact Hasc).
        rewrite !total_count_app in Hd. simpl in Hd. lia.
      * rewrite (update_zone_missing clock _ _ _ _ w Hz) in E.
        destruct (forallb int64 _); [|discriminate].
        destruct (reserved w); [discriminate|].
        injection E as <-. cbn [disk] in Hd.
        apply (f_equal (fun db => List.length (zones db))) in Hd.
        unfold insert_into_zones in Hd. cbn [zones] in Hd.
        rewrite length_app in Hd. simpl in Hd. lia.
    + rewrite (Hn eq_refl). reflexivity.
  - intros cs Hsev Hupd Hlen.
    assert (H : forall n w,
               file_ok n (disk w) -> reserved w = false ->
               ids_ascending (zones (disk w)) ->
               Z.of_nat (n + List.length cs) < 2 ^ 62 ->
               total_count (zones (disk (run clock cs w)))
               = total_count (zones (disk w)) + Z.of_nat (List.length cs)).
    { clear Hlen. induction cs as [|c cs IH]; intros n w Hok Hr Hasc Hlen.
      - simpl. lia.
      - inversion Hsev as [|? ? [Hs0 Hs10] Hsev']; subst.
        inversion Hupd as [|? ? Hc Hupd']; subst.
        destruct c as [? ? ? ? ? ?|latitude longitude severity_score radius];
          [discriminate|].
        cbn [run perform severity_of] in *. cbn [List.length] in Hlen.
        assert (Hn : Z.of_nat n < 2 ^ 62) by lia.
        assert (Hn' : Z.of_nat (S n + List.length cs) < 2 ^ 62) by lia.
        pose proof (update_zone_returns clock latitude longitude severity_score
                      radius n w Hok Hr Hn Hs0 Hs10) as Hret.
        pose proof (update_zone_step clock latitude longitude severity_score
                      radius w) as (Hstep & _ & Hres & _).
        cbv zeta in Hstep, Hres.
        assert (Hok' : file_ok (S n)
                         (disk (world_of (update_zone clock latitude longitude
                                                      severity_score radius w)))).
        { apply (file_ok_step n latitude longitude severity_score radius
                   (clock (ticks w)) (disk w)); [split|..]; assumption. }
        pose proof (zone_step_ids_ascending _ _ _ _ _ _ _ Hstep Hasc) as Hasc'.
        assert (Hr' : reserved (world_of (update_zone clock latitude longitude
                                                      severity_score radius w))
                      = false) by congruence.
        rewrite (IH Hsev' Hupd' (S n) _ Hok' Hr' Hasc' Hn').
        assert (Hone : total_count
                         (zones (disk (world_of (update_zone clock latitude
                                                   longitude severity_score
                                                   radius w))))
                       = total_count (zones (disk w)) + 1).
        { destruct (fetchone (zone_where latitude radius longitude radius)
                             (zones (disk w))) as [z|] eqn:Hz.
          - destruct Hret as (average & _ & _ & E). rewrite E.
            cbn [world_of disk zones with_zones].
            destruct (fetchone_split _ _ z Hz) as (before & after & El & _ & _).
            rewrite El in *.
            rewrite update_zones_set_at by (apply ascending_NoDup; exact Hasc).
            rewrite !total_count_app. simpl. lia.
          - rewrite Hret. cbn [world_of disk]. unfold insert_into_zones.
            cbn [zones]. rewrite total_count_app. simpl. lia. }
        rewrite Hone. cbn [List.length]. lia. }
    rewrite (H 0%nat fresh).
    + simpl. lia.
    + split; [simpl; lia | constructor].
    + reflexivity.
    + constructor.
    + simpl. exact Hlen.
Qed.

Lemma update_zone_counts_every_call_witness :
  total_count (zones (disk (run demo_clock zero_then_ten fresh))) = 2.
Proof.
  destruct (update_zone_counts_every_call demo_clock) as [_ H].
  apply (H zero_then_ten).
  - repeat constructor; simpl; lra.
  - repeat constructor.
  - simpl. lia.
Defined.

Lemma zone_grows_refl (l : list Zone.row) : Forall2 zone_grows l l.
Proof.
  induction l as [|a l IH]; constructor; [|exact IH].
  unfold zone_grows. repeat split; lia.
Qed.

Lemma zone_grows_trans (l1 l2 l3 : list Zone.row) :
  Forall2 zone_grows l1 l2 -> Forall2 zone_grows l2 l3 -> Forall2 zone_grows l1 l3.
Proof.
  intro H. revert l3. induction H as [|a b l1 l2 Hab _ IH]; intros l3 H23.
  - inversion H23. constructor.
  - inversion H23 as [|b' c l2' l3' Hbc H23']; subst. constructor.
    + destruct Hab as (A1 & A2 & A3 & A4 & A5), Hbc as (B1 & B2 & B3 & B4 & B5).
      unfold zone_grows. repeat split; try congruence. lia.
    + apply IH. exact H23'.
Qed.

Lemma zone_step_grows (latitude longitude severity_score radius : Q)
    (ts : timestamp) (db db' : database) :
  NoDup (map Zone.id (zones db)) ->
  zone_step latitude longitude severity_score radius ts db db' ->
  exists kept added,
    zones db' = kept ++ added /\ Forall2 zone_grows (zones db) kept.
Proof.
  intros Hdup [ | z average Hz _ _ | _ _ ].
  - exists (zones db), []. rewrite app_nil_r.
    split; [reflexivity | apply zone_grows_refl].
  - cbn [zones with_zones].
    destruct (fetchone_split _ _ z Hz) as (before & after & El & _ & _).
    rewrite El in *. rewrite update_zones_set_at by exact Hdup.
    eexists. exists []. rewrite app_nil_r. split; [reflexivity|].
    apply Forall2_app; [apply zone_grows_refl|].
    constructor; [|apply zone_grows_refl].
    unfold zone_grows. simpl. repeat split; lia.
  - unfold insert_into_zones. cbn [zones].
    eexists. eexists. split; [reflexivity | apply zone_grows_refl].
Qed.

(** X5.  Zones are permanent.  Along any calls of [add_photo] and
    [update_zone] on a table with ascending identifiers, every zone row
    present at the start is still there at the end, at the same position,
    with the same [id], centre and [radius] and a [photo_count] that has not
    gone down; the rows created by the calls come after them. *)
Theorem run_keeps_zones :
  forall clock cs w,
    ids_ascending (zones (disk w)) ->
    exists kept added,
      zones (disk (run clock cs w)) = kept ++ added
      /\ Forall2 zone_grows (zones (disk w)) kept.
Proof.
  intros clock cs. induction cs as [|c cs IH]; intros w Hasc.
  - exists (zones (disk w)), []. simpl. rewrite app_nil_r.
    split; [reflexivity | apply zone_grows_refl].
  - simpl.
    assert (H1 : exists kept added,
               zones (disk (world_of (perform clock c w))) = kept ++ added
               /\ Forall2 zone_grows (zones (disk w)) kept
               /\ ids_ascending (zones (disk (world_of (perform clock c w))))).
    { destruct (perform_step clock c w)
        as ([E|(latitude & longitude & _ & Hs & _)] & _).
      - rewrite E. exists (zones (disk w)), []. rewrite app_nil_r.
        split; [reflexivity|]. split; [apply zone_grows_refl | exact Hasc].
      - destruct (zone_step_grows _ _ _ _ _ _ _ (ascending_NoDup _ Hasc) Hs)
          as (kept & added & E & G).
        exists kept, added. split; [exact E|]. split; [exact G|].
        exact (zone_step_ids_ascending _ _ _ _ _ _ _ Hs Hasc). }
    destruct H1 as (kept1 & added1 & E1 & G1 & Hasc1).
    destruct (IH _ Hasc1) as (kept2 & added2 & E2 & G2).
    rewrite E1 in G2. apply Forall2_app_inv_l in G2.
    destruct G2 as (k2a & k2b & Ga & Gb & ->).
    exists k2a, (k2b ++ added2). split.
    + rewrite E2. rewrite <- app_assoc. reflexivity.
    + apply (zone_grows_trans _ kept1); assumption.
Qed.

Lemma run_keeps_zones_witness :
  exists kept added,
    zones (disk (run demo_clock
                     [call_update_zone lat_18_5205 lng_73_8568 4 default_radius;
                      call_update_zone lat_18_6 lng_73_9 5 default_radius]
                     (one_zone_world default_radius))) = kept ++ added
    /\ Forall2 zone_grows (zones (disk (one_zone_world default_radius))) kept.
Proof.
  apply (run_keeps_zones demo_clock
           [call_update_zone lat_18_5205 lng_73_8568 4 default_radius;
            call_update_zone lat_18_6 lng_73_9 5 default_radius]
           (one_zone_world default_radius)).
  unfold ids_ascending. simpl. repeat constructor.
Defined.

Lemma ordered_pairs_snoc {A} (R : A -> A -> Prop) (l : list A) (x : A) :
  ForallOrdPairs R l -> Forall (fun a => R a x) l -> ForallOrdPairs R (l ++ [x]).
Proof.
  induction 1 as [|a l Ha Hl IH]; intro Hx; simpl.
  - constructor; constructor.
  - inversion Hx as [|? ? Hax Hx']; subst. constructor.
    + apply Forall_app. split; [exact Ha|]. constructor; [exact Hax | constructor].
    + apply IH. exact Hx'.
Qed.

Lemma ordered_pairs_map {A} (R : A -> A -> Prop) (g : A -> A) (l : list A) :
  (forall a b, R a b -> R (g a) (g b)) ->
  ForallOrdPairs R l -> ForallOrdPairs R (map g l).
Proof.
  intro Hg. induction 1 as [|a l Ha Hl IH]; simpl; constructor; [|exact IH].
  apply Forall_map. apply (Forall_impl _ (fun b => Hg a b) Ha).
Qed.

Lemma zone_step_apart (latitude longitude severity_score radius : Q)
    (ts : timestamp) (db db' : database) :
  zone_step latitude longitude severity_score radius ts db db' ->
  ForallOrdPairs (apart radius) (zones db) ->
  ForallOrdPairs (apart radius) (zones db').
Proof.
  intros [ | z average _ _ _ | Hz _ ] Hap.
  - exact Hap.
  - cbn [zones with_zones]. unfold update_zones_set.
    apply ordered_pairs_map; [|exact Hap].
    intros a b Hab.
    destruct (Zone.id a =? Zone.id z), (Zone.id b =? Zone.id z); exact Hab.
  - unfold insert_into_zones. cbn [zones].
    apply ordered_pairs_snoc; [exact Hap|].
    apply Forall_forall. intros a Ha. unfold apart. simpl.
    exact (proj1 (fetchone_none _ _) Hz a Ha).
Qed.

(** X6.  Zone centres stay apart.  If no zone's centre passes the
    containment test of a zone earlier in the table, calls that all use the
    same radius keep it so: a zone is only created at a location that passes
    the test of no existing zone.  This holds in particular for calls with
    the default radius on the empty store. *)
Theorem run_keeps_centres_apart :
  forall clock radius cs w,
    Forall (fun c => radius_of c = radius) cs ->
    ForallOrdPairs (apart radius) (zones (disk w)) ->
    ForallOrdPairs (apart radius) (zones (disk (run clock cs w))).
Proof.
  intros clock radius cs. induction cs as [|c cs IH]; intros w Hr Hap; [exact Hap|].
  inversion Hr as [|? ? Hc Hr']; subst. simpl. apply IH; [exact Hr'|].
  destruct (perform_step clock c w) as ([E|(latitude & longitude & _ & Hs & _)] & _).
  - rewrite E. exact Hap.
  - exact (zone_step_apart _ _ _ _ _ _ _ Hs Hap).
Qed.

Lemma run_keeps_centres_apart_witness :
  ForallOrdPairs (apart default_radius)
    (zones (disk (run demo_clock two_level_five_updates fresh))).
Proof.
  apply (run_keeps_centres_apart demo_clock default_radius
           two_level_five_updates fresh).
  - repeat constructor.
  - constructor.
Defined.






(** ** Edge cases of the arguments *)



(** X12.  An inverted bounding box selects nothing: with [north < south] or
    [east < west], [get_photos_in_bounds] returns the empty listing on every
    store. *)
Theorem get_photos_in_bounds_inverted_box :
  forall north south east west w,
    (north < south)%Q \/ (east < west)%Q ->
    get_photos_in_bounds north south east west w = Return [] w.
Proof.
  intros north south east west w Hinv.
  unfold get_photos_in_bounds, bind, read_disk, ret.
  assert (E : filter (bounds_where north south east west) (photos (disk w)) = []).
  { induction (photos (disk w)) as [|p l IH]; [reflexivity|]. simpl.
    destruct (bounds_where north south east west p) eqn:Hp; [|exact IH].
    exfalso. apply bounds_where_in_bounds in Hp.
    destruct Hp as (H1 & H2 & H3 & H4). destruct Hinv as [H|H].
    - apply (Qlt_not_le _ _ H). apply (Qle_trans _ (Photo.latitude p)); assumption.
    - apply (Qlt_not_le _ _ H). apply (Qle_trans _ (Photo.longitude p)); assumption. }
  rewrite E. reflexivity.
Qed.

Lemma get_photos_in_bounds_inverted_box_witness :
  get_photos_in_bounds (1851 # 100) (1853 # 100) (7387 # 100) (7385 # 100)
                       two_photo_world
  = Return [] two_photo_world.
Proof.
  apply get_photos_in_bounds_inverted_box. left. vm_compute. reflexivity.
Defined.

Lemma filter_narrow {A} (f g : A -> bool) (l : list A) :
  (forall x, f x = true -> g x = true) ->
  filter f (filter g l) = filter f l.
Proof.
  intro Hfg. induction l as [|a l IH]; simpl; [reflexivity|].
  destruct (g a) eqn:Ga; simpl.
  - destruct (f a); rewrite IH; reflexivity.
  - destruct (f a) eqn:Fa; [|exact IH].
    apply Hfg in Fa. congruence.
Qed.

(** X13.  Narrowing the box narrows the listing.  When one bounding box lies
    inside another, the listing of [get_photos_in_bounds] for the inner box
    is the listing for the outer box restricted to the inner box, in the
    same order. *)
Theorem get_photos_in_bounds_nested_boxes :
  forall north south east west north' south' east' west' w,
    (north <= north')%Q -> (south' <= south)%Q ->
    (east <= east')%Q -> (west' <= west)%Q ->
    exists inner outer,
      get_photos_in_bounds north south east west w = Return inner w
      /\ get_photos_in_bounds north' south' east' west' w = Return outer w
      /\ inner = filter (bounds_where north south east west) outer
      /\ (forall p, In p inner -> In p outer).
Proof.
  intros north south east west north' south' east' west' w Hn Hs He Hw.
  eexists. eexists. split; [reflexivity|]. split; [reflexivity|].
  assert (E : order_by_desc Photo.timestamp String.ltb
                (filter (bounds_where north south east west) (photos (disk w)))
              = filter (bounds_where north south east west)
                  (order_by_desc Photo.timestamp String.ltb
                     (filter (bounds_where north' south' east' west')
                             (photos (disk w))))).
  { rewrite <- (order_by_desc_filter Photo.timestamp String.ltb
                  (bounds_where north south east west) string_geb_trans
                  string_ltb_asym).
    rewrite filter_narrow; [reflexivity|].
    intros p Hp. apply bounds_where_in_bounds in Hp.
    apply bounds_where_in_bounds. destruct Hp as (H1 & H2 & H3 & H4).
    repeat split.
    - apply (Qle_trans _ south); assumption.
    - apply (Qle_trans _ north); assumption.
    - apply (Qle_trans _ west); assumption.
    - apply (Qle_trans _ east); assumption. }
  split; [exact E|].
  intros p Hp. rewrite E in Hp. apply filter_In in Hp. tauto.
Qed.


Lemma get_photos_in_bounds_nested_boxes_witness :
  exists inner outer,
    get_photos_in_bounds (1853 # 100) (1851 # 100) (7387 # 100) (7385 # 100)
                         two_photo_world
    = Return inner two_photo_world
    /\ get_photos_in_bounds 90 (-90) 180 (-180) two_photo_world
       = Return outer two_photo_world
    /\ inner = filter (bounds_where (1853 # 100) (1851 # 100) (7387 # 100)
                                    (7385 # 100)) outer.
Proof.
  destruct (get_photos_in_bounds_nested_boxes
              (1853 # 100) (1851 # 100) (7387 # 100) (7385 # 100)
              90 (-90) 180 (-180) two_photo_world)
    as (inner & outer & E1 & E2 & E3 & _);
    try (vm_compute; discriminate).
  exists inner, outer. split; [exact E1|]. split; [exact E2 | exact E3].
Defined.

(** ** Listing in reverse insertion order *)

Lemma insert_desc_last {A K} (key : A -> K) (ltb : K -> K -> bool) (x : A)
    (l : list A) :
  Forall (fun y => ltb (key x) (key y) = true) l ->
  insert_desc key ltb x l = l ++ [x].
Proof.
  induction 1 as [|y l Hy _ IH]; simpl; [reflexivity|].
  rewrite Hy, IH. reflexivity.
Qed.

(** X14.  When the timestamps of the [photos] table strictly ascend in scan
    order, as they do under a clock whose readings strictly ascend,
    [get_all_photos] lists the table in reverse insertion order. *)
Theorem get_all_photos_reverse_insertion_order :
  forall w,
    StronglySorted (fun a b => String.ltb a b = true)
                   (map Photo.timestamp (photos (disk w))) ->
    get_all_photos w = Return (rev (photos (disk w))) w.
Proof.
  intros w Hs. unfold get_all_photos, bind, read_disk, ret. f_equal.
  induction (photos (disk w)) as [|p l IH]; [reflexivity|].
  simpl in Hs. apply StronglySorted_inv in Hs. destruct Hs as [Hs Hp].
  simpl. rewrite (IH Hs). apply insert_desc_last.
  apply Forall_forall. intros q Hq. apply in_rev in Hq.
  rewrite Forall_forall in Hp. apply Hp. apply in_map. exact Hq.
Qed.


Lemma get_all_photos_reverse_insertion_order_witness :
  get_all_photos two_photo_world
  = Return (rev (photos (disk two_photo_world))) two_photo_world.
Proof.
  apply get_all_photos_reverse_insertion_order.
  vm_compute. repeat constructor.
Defined.

(** ** The outcomes of [update_zone] *)

(** X22.  What [update_zone] writes when it finds a zone.  On a table with
    unique identifiers whose first row that passes the containment test is
    [z], when the lock is free, the average is defined and the three
    integers fit in 64 bits, [update_zone] returns and rewrites that one
    row: its [waste_level] becomes [int] of the average of the old level
    weighted by the incremented count, its [photo_count] goes up by one and
    its [last_updated] is the clock reading; nothing else changes. *)
Theorem update_zone_rewrites_first_match :
  forall clock latitude longitude severity_score radius w before z after average,
    reserved w = false ->
    zones (disk w) = before ++ z :: after ->
    NoDup (map Zone.id (zones (disk w))) ->
    zone_where latitude radius longitude radius z = true ->
    (forall x, In x before -> zone_where latitude radius longitude radius x = false) ->
    level_average (Zone.waste_level z) (Zone.photo_count z + 1) severity_score
    = inr average ->
    forallb int64 [py_int average; Zone.photo_count z + 1; Zone.id z] = true ->
    exists w',
      update_zone clock latitude longitude severity_score radius w = Return tt w'
      /\ zones (disk w')
         = before
           ++ Zone.mk (Zone.id z) (Zone.center_lat z) (Zone.center_lng z)
                      (Zone.radius z) (py_int average) (Zone.photo_count z + 1)
                      (clock (ticks w))
           :: after
      /\ photos (disk w') = photos (disk w)
      /\ zones_seq (disk w') = zones_seq (disk w)
      /\ ticks w' = S (ticks w)
      /\ reserved w' = false.
Proof.
  intros clock latitude longitude severity_score radius w before z after average
         Hres El Hdup Hz Hbefore Ea Hi.
  assert (Hf : fetchone (zone_where latitude radius longitude radius)
                        (zones (disk w)) = Some z).
  { rewrite El. unfold fetchone. clear El Hdup.
    induction before as [|x before IH]; simpl.
    - rewrite Hz. reflexivity.
    - rewrite (Hbefore x (or_introl eq_refl)). apply IH.
      intros y Hy. apply Hbefore. right. exact Hy. }
  rewrite (update_zone_found clock _ _ _ _ w z Hf), Ea, Hi, Hres.
  eexists. split; [reflexivity|]. cbn [disk zones with_zones ticks reserved].
  split; [|auto].
  rewrite El in Hdup |- *. apply update_zones_set_at. exact Hdup.
Qed.

Lemma update_zone_rewrites_first_match_witness :
  exists w',
    update_zone demo_clock lat_18_5205 lng_73_8568 4 default_radius
                (one_zone_world default_radius) = Return tt w'
    /\ zones (disk w')
       = [Zone.mk 1 lat_18_5204 lng_73_8567 default_radius 6 2
                  "2024-03-01T10:05:00.000100"].
Proof.
  destruct (update_zone_rewrites_first_match demo_clock lat_18_5205 lng_73_8568 4
              default_radius (one_zone_world default_radius) []
              (Zone.mk 1 lat_18_5204 lng_73_8567 default_radius 8 1
                       "2024-03-01T10:00:00.004200") []
              (7505999378950827 # 1125899906842624))
    as (w' & E & Hz & _).
  - reflexivity.
  - reflexivity.
  - simpl. constructor; [intros [] | constructor].
  - vm_compute. reflexivity.
  - intros x [].
  - vm_compute. reflexivity.
  - vm_compute. reflexivity.
  - exists w'. split; [exact E|]. rewrite Hz. vm_compute. reflexivity.
Defined.

(** X23.  While another connection holds the write lock, [update_zone]
    raises whatever its arguments, after one clock reading, and the file and
    the lock are as before.  The exception is [OperationalError] when no
    zone matches and [int(severity)] fits in 64 bits. *)
Theorem update_zone_under_lock :
  forall clock latitude longitude severity_score radius w,
    reserved w = true ->
    (exists e,
        update_zone clock latitude longitude severity_score radius w
        = Raise e (tick w))
    /\ (fetchone (zone_where latitude radius longitude radius) (zones (disk w))
        = None ->
        int64 (py_int severity_score) = true ->
        update_zone clock latitude longitude severity_score radius w
        = Raise OperationalError (tick w)).
Proof.
  intros clock latitude longitude severity_score radius w Hres. split.
  - apply update_zone_locked. exact Hres.
  - intros Hnone Hs.
    rewrite (update_zone_missing clock _ _ _ _ w Hnone). cbn [forallb].
    rewrite Hs, Hres. reflexivity.
Qed.

Lemma update_zone_under_lock_witness :
  update_zone demo_clock lat_18_5204 lng_73_8567 8 default_radius
              {| disk := init_db; ticks := 1; reserved := true |}
  = Raise OperationalError {| disk := init_db; ticks := 2; reserved := true |}.
Proof.
  destruct (update_zone_under_lock demo_clock lat_18_5204 lng_73_8567 8
              default_radius {| disk := init_db; ticks := 1; reserved := true |})
    as [_ H].
  - reflexivity.
  - apply H; reflexivity.
Defined.

(** X24.  A severity whose integer part does not fit in 64 bits cannot be
    stored: when no zone matches, [update_zone] raises [OverflowError] after
    one clock reading and writes nothing. *)
Theorem update_zone_severity_overflow :
  forall clock latitude longitude severity_score radius w,
    fetchone (zone_where latitude radius longitude radius) (zones (disk w)) = None ->
    int64 (py_int severity_score) = false ->
    update_zone clock latitude longitude severity_score radius w
    = Raise OverflowError (tick w).
Proof.
  intros clock latitude longitude severity_score radius w Hnone Hs.
  rewrite (update_zone_missing clock _ _ _ _ w Hnone). cbn [forallb].
  rewrite Hs. reflexivity.
Qed.

Lemma update_zone_severity_overflow_witness :
  round_double (inject_Z (10 ^ 19)) = Some (inject_Z (10 ^ 19))
  /\ update_zone demo_clock lat_18_5204 lng_73_8567 (inject_Z (10 ^ 19))
                 default_radius fresh
     = Raise OverflowError (tick fresh).
Proof.
  split; [vm_compute; reflexivity|].
  apply update_zone_severity_overflow; vm_compute; reflexivity.
Defined.

Lemma zone_step_length (latitude longitude severity_score radius : Q)
    (ts : timestamp) (db db' : database) :
  zone_step latitude longitude severity_score radius ts db db' ->
  (List.length (zones db') <= S (List.length (zones db)))%nat.
Proof.
  intros [ | z average _ _ _ | _ _ ].
  - lia.
  - cbn [zones with_zones]. unfold update_zones_set. rewrite length_map. lia.
  - unfold insert_into_zones. cbn [zones]. rewrite length_app. simpl. lia.
Qed.

(** X25.  The scan order is the id order.  After any calls on the empty
    store the identifiers of the [zones] table strictly ascend in scan
    order, so the first row a lookup meets is the one of smallest id, and
    there are at most as many zones as calls. *)
Theorem run_scan_order :
  forall clock cs,
    ids_ascending (zones (disk (run clock cs fresh)))
    /\ NoDup (map Zone.id (zones (disk (run clock cs fresh))))
    /\ (List.length (zones (disk (run clock cs fresh))) <= List.length cs)%nat.
Proof.
  intros clock cs.
  assert (Hasc : ids_ascending (zones (disk (run clock cs fresh)))).
  { apply run_ids_ascending. constructor. }
  split; [exact Hasc|]. split; [apply ascending_NoDup; exact Hasc|].
  assert (H : forall w,
             (List.length (zones (disk (run clock cs w)))
              <= List.length (zones (disk w)) + List.length cs)%nat).
  { clear Hasc. induction cs as [|c cs IH]; intro w; simpl; [lia|].
    specialize (IH (world_of (perform clock c w))).
    destruct (perform_step clock c w)
      as ([E|(latitude & longitude & _ & Hs & _)] & _).
    - rewrite E in IH. lia.
    - pose proof (zone_step_length _ _ _ _ _ _ _ Hs). lia. }
  exact (H fresh).
Qed.

(** * Properties of [app.py] *)

(** ** [allowed_file] *)

Lemma rsplit1_without (sep : ascii) (s : string) :
  contains_char sep s = false -> rsplit1 sep s = [s].
Proof.
  induction s as [|c s IH]; simpl; [reflexivity|].
  intro H. apply orb_false_iff in H. destruct H as [Hc Hs].
  rewrite (IH Hs), Hc. reflexivity.
Qed.

Lemma rsplit1_append (sep : ascii) (stem extension : string) :
  contains_char sep extension = false ->
  rsplit1 sep (stem ++ String sep extension) = [stem; extension].
Proof.
  intro H. induction stem as [|c stem IH]; simpl.
  - rewrite (rsplit1_without sep extension H), Ascii.eqb_refl. reflexivity.
  - rewrite IH. reflexivity.
Qed.

Lemma contains_char_split (sep : ascii) (s : string) :
  contains_char sep s = true ->
  exists stem extension,
    s = (stem ++ String sep extension)%string
    /\ contains_char sep extension = false.
Proof.
  induction s as [|c s IH]; simpl; [discriminate|].
  intro H. destruct (contains_char sep s) eqn:Hs.
  - destruct (IH eq_refl) as (stem & extension & -> & Hext).
    exists (String c stem), extension. split; [reflexivity | exact Hext].
  - rewrite orb_false_r in H. apply Ascii.eqb_eq in H. subst c.
    exists EmptyString, s. split; [reflexivity | exact Hs].
Qed.

Lemma contains_char_append (sep : ascii) (stem rest : string) :
  contains_char sep (stem ++ String sep rest) = true.
Proof.
  induction stem as [|c stem IH]; simpl.
  - rewrite Ascii.eqb_refl. reflexivity.
  - rewrite IH. apply orb_true_r.
Qed.

Lemma allowed_extension (extension : string) :
  existsb (String.eqb (lower extension)) ALLOWED_EXTENSIONS = true
  <-> In (lower extension) ALLOWED_EXTENSIONS.
Proof.
  rewrite existsb_exists. split.
  - intros (x & Hx & E). apply String.eqb_eq in E. rewrite E. exact Hx.
  - intro H. exists (lower extension). split; [exact H | apply String.eqb_refl].
Qed.

(** X15.  [allowed_file] accepts exactly the names that have a dot and whose
    part after the last dot is [png], [jpg] or [jpeg] in any mix of upper and
    lower case; the part before the last dot is free and may be empty. *)
Theorem allowed_file_extension :
  forall filename,
    allowed_file filename = true
    <-> exists stem extension,
          filename = (stem ++ "." ++ extension)%string
          /\ contains_char "." extension = false
          /\ In (lower extension) ALLOWED_EXTENSIONS.
Proof.
  intro filename. unfold allowed_file. split.
  - intro H. apply andb_true_iff in H. destruct H as [Hdot Hext].
    destruct (contains_char_split "." filename Hdot) as (stem & extension & -> & Hno).
    rewrite (rsplit1_append "." stem extension Hno) in Hext. simpl in Hext.
    exists stem, extension. split; [reflexivity|]. split; [exact Hno|].
    apply allowed_extension. exact Hext.
  - intros (stem & extension & -> & Hno & Hin).
    change ("." ++ extension)%string with (String "." extension).
    rewrite contains_char_append, (rsplit1_append "." stem extension Hno).
    simpl nth_error. apply allowed_extension. exact Hin.
Qed.

(** ** [analyze_waste_image] *)

Lemma py_min_le_r (a b : Q) : (py_min a b <= b)%Q.
Proof.
  unfold py_min. destruct (Qltb b a) eqn:E; [apply Qle_refl|].
  apply Qnot_lt_le. intro H. apply Qltb_lt in H. congruence.
Qed.

Lemma py_min_nonneg (a b : Q) : (0 <= a)%Q -> (0 <= b)%Q -> (0 <= py_min a b)%Q.
Proof.
  unfold py_min. destruct (Qltb b a); auto.
Qed.

Lemma py_round_bounds (x : Q) (ndigits : nat) (a b : Z) :
  (inject_Z a <= x * inject_Z (10 ^ Z.of_nat ndigits))%Q ->
  (x * inject_Z (10 ^ Z.of_nat ndigits) <= inject_Z b)%Q ->
  (inject_Z a / inject_Z (10 ^ Z.of_nat ndigits) <= py_round x ndigits)%Q
  /\ (py_round x ndigits <= inject_Z b / inject_Z (10 ^ Z.of_nat ndigits))%Q.
Proof.
  intros Ha Hb. unfold py_round.
  destruct (round_half_even_bounds _ a b Ha Hb) as [H1 H2].
  assert (Hd : (0 < inject_Z (10 ^ Z.of_nat ndigits))%Q).
  { change 0%Q with (inject_Z 0). rewrite <- Zlt_Qlt.
    apply Z.pow_pos_nonneg; lia. }
  rewrite Zle_Qle in H1, H2.
  split.
  - apply Qle_shift_div_l; [exact Hd|]. unfold Qdiv.
    rewrite <- Qmult_assoc, (Qmult_comm (/ _)), Qmult_inv_r, Qmult_1_r;
      [exact H1|]. intro E. rewrite E in Hd. discriminate.
  - apply Qle_shift_div_r; [exact Hd|]. unfold Qdiv.
    rewrite <- Qmult_assoc, (Qmult_comm (/ _)), Qmult_inv_r, Qmult_1_r;
      [exact H2|]. intro E. rewrite E in Hd. discriminate.
Qed.

Lemma countNonZero_bounds (mask : list bool) :
  0 <= countNonZero mask <= Z.of_nat (List.length mask).
Proof.
  unfold countNonZero. pose proof (filter_length_le (fun b => b) mask). lia.
Qed.

Lemma ratio_bounds (a t : Z) :
  0 <= a <= t -> 0 < t ->
  (0 <= inject_Z a / inject_Z t)%Q /\ (inject_Z a / inject_Z t <= 1)%Q.
Proof.
  intros Ha Ht.
  assert (Hd : (0 < inject_Z t)%Q).
  { change 0%Q with (inject_Z 0). rewrite <- Zlt_Qlt. exact Ht. }
  split.
  - apply Qle_shift_div_l; [exact Hd|]. rewrite Qmult_0_l.
    change 0%Q with (inject_Z 0). rewrite <- Zle_Qle. lia.
  - apply Qle_shift_div_r; [exact Hd|]. rewrite Qmult_1_l.
    rewrite <- Zle_Qle. lia.
Qed.

Lemma count_in_bounds (bgr2hsv : pixel -> pixel) (lowerb upperb : pixel)
    (img : list pixel) :
  0 <= count_in bgr2hsv lowerb upperb img <= Z.of_nat (List.length img).
Proof.
  unfold count_in.
  pose proof (countNonZero_bounds (map (inRange lowerb upperb) (map bgr2hsv img))) as H.
  rewrite !length_map in H. exact H.
Qed.

Lemma true_div_positive (a b : Z) :
  0 < b -> true_div a b = inr (inject_Z a / inject_Z b)%Q.
Proof.
  intro H. unfold true_div. destruct (b =? 0) eqn:E; [|reflexivity].
  apply Z.eqb_eq in E. lia.
Qed.

(** The analysis of an image that has pixels. *)
Lemma analyze_waste_image_pixels (imread : string -> option (list pixel))
    (bgr2hsv : pixel -> pixel) (image_path : string) (img : list pixel) :
  imread image_path = Some img -> img <> [] ->
  let total := Z.of_nat (List.length img) in
  let green := green_of bgr2hsv img in
  let brown := brown_of bgr2hsv img in
  let blue := blue_of bgr2hsv img in
  let choice :=
    if (brown <? green) && (blue <? green) then ("organic"%string, green)
    else if blue <? brown then ("mixed"%string, brown)
    else ("plastic"%string, blue) in
  0 < total
  /\ 0 <= snd choice <= total
  /\ analyze_waste_image imread bgr2hsv image_path
     = inr {| category := fst choice;
              confidence :=
                py_round (py_min (inject_Z (snd choice) / inject_Z total * 3)
                                 (95 # 100)) 2;
              severity :=
                py_min (py_round ((1 - inject_Z green / inject_Z total) * 10) 1)
                       10 |}.
Proof.
  intros Him Hne total green brown blue choice.
  assert (Ht : 0 < total).
  { subst total. destruct img; [congruence | simpl; lia]. }
  split; [exact Ht|]. split.
  - subst choice green brown blue.
    destruct ((brown_of bgr2hsv img <? green_of bgr2hsv img)
              && (blue_of bgr2hsv img <? green_of bgr2hsv img));
      [|destruct (blue_of bgr2hsv img <? brown_of bgr2hsv img)];
      simpl; apply count_in_bounds.
  - unfold analyze_waste_image. rewrite Him.
    fold (count_in bgr2hsv (36, 25, 25) (70, 255, 255) img).
    fold (count_in bgr2hsv (10, 100, 20) (20, 255, 200) img).
    fold (count_in bgr2hsv (90, 50, 50) (130, 255, 255) img).
    fold (green_of bgr2hsv img) (brown_of bgr2hsv img) (blue_of bgr2hsv img).
    fold green brown blue total. rewrite !(true_div_positive _ total Ht).
    subst choice.
    destruct ((brown <? green) && (blue <? green));
      [|destruct (blue <? brown)]; reflexivity.
Qed.

Lemma analysis_in_range :
  forall imread bgr2hsv image_path result,
    analyze_waste_image imread bgr2hsv image_path = inr result ->
    (0 <= severity result)%Q /\ (severity result <= 10)%Q
    /\ (0 <= confidence result)%Q /\ (confidence result <= 95 # 100)%Q.
Proof.
  intros imread bgr2hsv image_path result E.
  destruct (imread image_path) as [img|] eqn:Him.
  - assert (Hcase : img = [] \/ img <> []).
    { destruct img; [left; reflexivity | right; discriminate]. }
    destruct Hcase as [->|Hne].
    + unfold analyze_waste_image in E. rewrite Him in E. simpl in E.
      discriminate.
    + destruct (analyze_waste_image_pixels imread bgr2hsv image_path img Him Hne)
        as (Ht & Hc & Ea).
      rewrite Ea in E. injection E as <-. cbn [severity confidence].
      set (total := Z.of_nat (List.length img)) in *.
      set (green := green_of bgr2hsv img) in *.
      set (c := snd _) in *.
      destruct (ratio_bounds green total (count_in_bounds _ _ _ _) Ht) as [G0 G1].
      destruct (ratio_bounds c total Hc Ht) as [C0 C1].
      set (g := (inject_Z green / inject_Z total)%Q) in *.
      set (q := (inject_Z c / inject_Z total)%Q) in *.
      assert (Hraw : (0 <= py_min (q * 3) (95 # 100))%Q).
      { apply py_min_nonneg; lra. }
      pose proof (py_min_le_r (q * 3) (95 # 100)) as Hraw'.
      set (raw := py_min (q * 3) (95 # 100)) in *.
      destruct (py_round_bounds raw 2 0 95) as [R0 R1].
      { change (inject_Z (10 ^ Z.of_nat 2)) with 100%Q.
        change (inject_Z 0) with 0%Q. lra. }
      { change (inject_Z (10 ^ Z.of_nat 2)) with 100%Q.
        change (inject_Z 95) with 95%Q. lra. }
      destruct (py_round_bounds ((1 - g) * 10) 1 0 100) as [S0 S1].
      { change (inject_Z (10 ^ Z.of_nat 1)) with 10%Q.
        change (inject_Z 0) with 0%Q. lra. }
      { change (inject_Z (10 ^ Z.of_nat 1)) with 10%Q.
        change (inject_Z 100) with 100%Q. lra. }
      change (inject_Z 0 / inject_Z (10 ^ Z.of_nat 2))%Q with (0 # 100)%Q in R0.
      change (inject_Z 95 / inject_Z (10 ^ Z.of_nat 2))%Q with (95 # 100)%Q in R1.
      change (inject_Z 0 / inject_Z (10 ^ Z.of_nat 1))%Q with (0 # 10)%Q in S0.
      change (inject_Z 100 / inject_Z (10 ^ Z.of_nat 1))%Q with (100 # 10)%Q in S1.
      set (sev := py_round ((1 - g) * 10) 1) in *.
      set (conf := py_round raw 2) in *.
      clearbody sev conf.
      split; [|split; [|split]].
      * apply py_min_nonneg; lra.
      * apply py_min_le_r.
      * lra.
      * lra.
  - unfold analyze_waste_image in E. rewrite Him in E. injection E as <-.
    simpl. lra.
Qed.

(** X16.  Whatever the image, an analysis that [analyze_waste_image] returns
    has its severity in [0, 10] and its confidence in [0, 0.95]: the values
    [upload_photo] hands to [add_photo] are in the ranges the zone levels
    rely on. *)
Theorem analyze_waste_image_ranges :
  forall imread bgr2hsv image_path result,
    analyze_waste_image imread bgr2hsv image_path = inr result ->
    (0 <= severity result)%Q /\ (severity result <= 10)%Q
    /\ (0 <= confidence result)%Q /\ (confidence result <= 95 # 100)%Q.
Proof.
  exact analysis_in_range.
Qed.

Lemma analyze_waste_image_ranges_witness :
  exists result,
    analyze_waste_image demo_imread demo_bgr2hsv "uploads/0000_wall.png" = inr result
    /\ (0 <= severity result)%Q /\ (severity result <= 10)%Q.
Proof.
  eexists. split; [vm_compute; reflexivity|].
  destruct (analyze_waste_image_ranges demo_imread demo_bgr2hsv
              "uploads/0000_wall.png" _ eq_refl) as (H1 & H2 & _).
  split; [exact H1 | exact H2].
Defined.

Lemma py_round_integer (x : Q) (ndigits : nat) (k : Z) :
  (x * inject_Z (10 ^ Z.of_nat ndigits) == inject_Z k)%Q ->
  py_round x ndigits = (inject_Z k / inject_Z (10 ^ Z.of_nat ndigits))%Q.
Proof.
  intro E. unfold py_round. rewrite (round_half_even_integer k _ E). reflexivity.
Qed.

Lemma ratio_zero (t : Z) : (inject_Z 0 / inject_Z t == 0)%Q.
Proof. unfold Qdiv. change (inject_Z 0) with 0%Q. ring. Qed.


Lemma py_min_left (a b : Q) : (a <= b)%Q -> py_min a b = a.
Proof.
  intro H. unfold py_min. destruct (Qltb b a) eqn:E; [|reflexivity].
  apply Qltb_lt in E. exfalso. exact (Qlt_not_le _ _ E H).
Qed.


(** X17.  An image with pixels of which none is in the green range gets
    severity 10 and is never [organic]; if none is in the brown or the blue
    range either, it is reported as [plastic] with confidence 0. *)
Theorem analyze_waste_image_no_green :
  forall imread bgr2hsv image_path img,
    imread image_path = Some img -> img <> [] ->
    green_of bgr2hsv img = 0 ->
    exists result,
      analyze_waste_image imread bgr2hsv image_path = inr result
      /\ (severity result == 10)%Q
      /\ category result <> "organic"%string
      /\ (brown_of bgr2hsv img = 0 -> blue_of bgr2hsv img = 0 ->
          category result = "plastic"%string /\ (confidence result == 0)%Q).
Proof.
  intros imread bgr2hsv image_path img Him Hne Hg.
  destruct (analyze_waste_image_pixels imread bgr2hsv image_path img Him Hne)
    as (Ht & _ & Ea).
  eexists. split; [exact Ea|]. cbn [severity category confidence].
  rewrite Hg.
  assert (Hb0 : 0 <= brown_of bgr2hsv img) by apply count_in_bounds.
  assert (Hl0 : 0 <= blue_of bgr2hsv img) by apply count_in_bounds.
  assert (Hnot : (brown_of bgr2hsv img <? 0) && (blue_of bgr2hsv img <? 0) = false).
  { destruct (Z.ltb_spec (brown_of bgr2hsv img) 0); [lia | reflexivity]. }
  rewrite Hnot. split; [|split].
  - rewrite (py_round_integer _ 1 100).
    + rewrite py_min_left; [|vm_compute; discriminate]. vm_compute. reflexivity.
    + rewrite ratio_zero. vm_compute. reflexivity.
  - destruct (blue_of bgr2hsv img <? brown_of bgr2hsv img); simpl; discriminate.
  - intros Hb Hl. rewrite Hb, Hl. simpl. split; [reflexivity|].
    assert (E : py_min (inject_Z 0 / inject_Z (Z.of_nat (List.length img)) * 3)
                       (95 # 100)
                = (inject_Z 0 / inject_Z (Z.of_nat (List.length img)) * 3)%Q).
    { apply py_min_left. rewrite ratio_zero. vm_compute. discriminate. }
    rewrite E. rewrite (py_round_integer _ 2 0).
    + vm_compute. reflexivity.
    + rewrite ratio_zero. vm_compute. reflexivity.
Qed.

Lemma analyze_waste_image_no_green_witness :
  exists result,
    analyze_waste_image demo_imread demo_bgr2hsv "uploads/0000_wall.png" = inr result
    /\ (severity result == 10)%Q
    /\ category result <> "organic"%string.
Proof.
  destruct (analyze_waste_image_no_green demo_imread demo_bgr2hsv
              "uploads/0000_wall.png" [(255, 255, 255); (250, 250, 250)])
    as (result & E & Hs & Hc & _).
  - reflexivity.
  - discriminate.
  - reflexivity.
  - exists result. split; [exact E|]. split; [exact Hs | exact Hc].
Defined.






(** ** [upload_photo] *)

Lemma allowed_file_not_empty (filename : string) :
  allowed_file filename = true -> String.eqb filename "" = false.
Proof.
  destruct filename; [discriminate | reflexivity].
Qed.

Section HandlerFacts.
Variable clock : nat -> timestamp.
Variable imread : string -> option (list pixel).
Variable bgr2hsv : pixel -> pixel.
Variable py_float : string -> option Q.
Variable secure_filename : string -> string.
Variable uuid4 : string.

Let handler := upload_photo clock imread bgr2hsv py_float secure_filename uuid4.

Lemma upload_photo_accepted (request : upload_request) (filename text text' : string)
    (latitude longitude : Q) (w : world) :
  files_photo request = Some filename ->
  allowed_file filename = true ->
  form_latitude request = Some text -> py_float text = Some latitude ->
  form_longitude request = Some text' -> py_float text' = Some longitude ->
  let filepath := upload_path secure_filename uuid4 filename in
  handler request w
  = match analyze_waste_image imread bgr2hsv filepath with
    | inl e => Raise e w
    | inr result =>
        (photo_id <- add_photo clock filepath latitude longitude
                               (category result) (severity result)
                               (confidence result) ;;
         zone <- get_zone_by_location latitude longitude default_radius ;;
         now <- datetime_now clock ;;
         ret (Success photo_id result
                {| e_photo_id := photo_id;
                   e_image_path := filepath;
                   e_latitude := latitude;
                   e_longitude := longitude;
                   e_timestamp := now;
                   e_analysis := result;
                   e_zone := zone |})) w
    end.
Proof.
  intros Hf Ha Hlat Hplat Hlng Hplng filepath.
  unfold handler, upload_photo.
  rewrite Hf, (allowed_file_not_empty filename Ha), Ha, Hlat, Hplat, Hlng, Hplng.
  simpl negb. cbv iota. fold (upload_path secure_filename uuid4 filename).
  fold filepath.
  destruct (analyze_waste_image imread bgr2hsv filepath); reflexivity.
Qed.

(** X19.  [upload_photo] answers 400 exactly for the requests that lack the
    file part, name no allowed file, or lack a latitude or longitude that
    [float] accepts; such a request leaves the store and the clock untouched. *)
Theorem upload_photo_bad_request :
  forall request w,
    (~ well_formed py_float request ->
     exists error, handler request w = Return (BadRequest error) w)
    /\ (well_formed py_float request ->
        forall error w', handler request w <> Return (BadRequest error) w').
Proof.
  intros request w. split.
  - intro Hbad. unfold handler, upload_photo.
    destruct (files_photo request) as [filename|] eqn:Hf;
      [|eexists; reflexivity].
    destruct (String.eqb filename "") eqn:He; [eexists; reflexivity|].
    destruct (allowed_file filename) eqn:Ha; [|eexists; reflexivity].
    simpl negb. cbv iota.
    destruct (form_latitude request) as [text|] eqn:Hlat; [|eexists; reflexivity].
    destruct (py_float text) as [latitude|] eqn:Hplat; [|eexists; reflexivity].
    destruct (form_longitude request) as [text'|] eqn:Hlng; [|eexists; reflexivity].
    destruct (py_float text') as [longitude|] eqn:Hplng; [|eexists; reflexivity].
    exfalso. apply Hbad.
    exists filename, text, text', latitude, longitude. auto 10.
  - intros (filename & text & text' & latitude & longitude
            & Hf & Ha & Hlat & Hplat & Hlng & Hplng) error w' E.
    rewrite (upload_photo_accepted request filename text text' latitude longitude w
               Hf Ha Hlat Hplat Hlng Hplng) in E.
    destruct (analyze_waste_image imread bgr2hsv
                (upload_path secure_filename uuid4 filename)) as [e|result];
      [discriminate|].
    unfold bind in E.
    destruct (add_photo clock _ latitude longitude (category result)
                        (severity result) (confidence result) w);
      [|discriminate].
    unfold get_zone_by_location, bind, read_disk, ret, datetime_now in E.
    discriminate.
Qed.
End HandlerFacts.

Lemma upload_photo_bad_request_witness :
  exists error,
    upload_photo demo_clock demo_imread demo_bgr2hsv demo_float demo_secure_filename
                 "0000"
                 {| files_photo := Some "notes.txt"%string;
                    form_latitude := Some "18.5204"%string;
                    form_longitude := Some "73.8567"%string |} fresh
    = Return (BadRequest error) fresh.
Proof.
  apply (upload_photo_bad_request demo_clock demo_imread demo_bgr2hsv demo_float
           demo_secure_filename "0000").
  intros (filename & text & text' & latitude & longitude & Hf & Ha & _).
  simpl in Hf. injection Hf as <-. vm_compute in Ha. discriminate.
Defined.

(** X20.  No upload is ever answered with success.  Whatever the request,
    the image and the store, [upload_photo] answers 400 or raises, and the
    database file is as before: a request that passes the checks reaches
    [add_photo], which raises. *)
Theorem upload_photo_never_succeeds :
  forall clock imread bgr2hsv py_float secure_filename uuid4 request w,
    let o := upload_photo clock imread bgr2hsv py_float secure_filename uuid4
                          request w in
    (forall photo_id result emitted w',
        o <> Return (Success photo_id result emitted) w')
    /\ disk (world_of o) = disk w
    /\ (well_formed py_float request -> result_of o = None).
Proof.
  intros clock imread bgr2hsv py_float secure_filename uuid4 request w o.
  assert (H : (exists error, o = Return (BadRequest error) w
                             /\ ~ well_formed py_float request)
              \/ (exists e w', o = Raise e w' /\ disk w' = disk w)).
  { subst o. unfold upload_photo.
    destruct (files_photo request) as [filename|] eqn:Hf.
    2:{ left. eexists. split; [reflexivity|].
        intros (f & _ & _ & _ & _ & Hf' & _). congruence. }
    destruct (String.eqb filename "") eqn:He.
    { left. eexists. split; [reflexivity|].
      intros (f & _ & _ & _ & _ & Hf' & Ha & _).
      rewrite Hf in Hf'. injection Hf' as <-.
      rewrite (allowed_file_not_empty _ Ha) in He. discriminate. }
    destruct (allowed_file filename) eqn:Ha.
    2:{ left. eexists. split; [reflexivity|].
        intros (f & _ & _ & _ & _ & Hf' & Ha' & _). congruence. }
    cbv beta iota delta [negb].
    destruct (form_latitude request) as [text|] eqn:Hlat.
    2:{ left. eexists. split; [reflexivity|].
        intros (f & t & _ & _ & _ & _ & _ & Hl & _). congruence. }
    destruct (py_float text) as [latitude|] eqn:Hplat.
    2:{ left. eexists. split; [reflexivity|].
        intros (f & t & _ & l & _ & _ & _ & Hl & Hp & _). congruence. }
    destruct (form_longitude request) as [text'|] eqn:Hlng.
    2:{ left. eexists. split; [reflexivity|].
        intros (f & t & t' & l & l' & _ & _ & _ & _ & Hl & _). congruence. }
    destruct (py_float text') as [longitude|] eqn:Hplng.
    2:{ left. eexists. split; [reflexivity|].
        intros (f & t & t' & l & l' & _ & _ & _ & _ & Hl & Hp). congruence. }
    right.
    destruct (analyze_waste_image imread bgr2hsv _) as [e|result].
    - exists e, w. split; reflexivity.
    - unfold bind. cbv beta iota delta [negb].
      match goal with
      | |- context [add_photo clock ?path latitude longitude ?c ?s ?f w] =>
          destruct (add_photo_raises clock path latitude longitude c s f w)
            as (e & E)
      end.
      rewrite E. exists e. eexists. split; [reflexivity|].
      destruct (reserved w); reflexivity. }
  destruct H as [(error & E & Hbad)|(e & w' & E & Hd)]; rewrite E.
  - split; [discriminate|]. split; [reflexivity|].
    intro Hw. contradiction.
  - split; [discriminate|]. split; [exact Hd | reflexivity].
Qed.

Lemma upload_photo_never_succeeds_witness :
  upload_photo demo_clock demo_imread demo_bgr2hsv demo_float demo_secure_filename
               "0000" demo_request fresh
  = Raise OperationalError {| disk := init_db; ticks := 2; reserved := false |}
  /\ result_of (upload_photo demo_clock demo_imread demo_bgr2hsv demo_float
                             demo_secure_filename "0000" demo_request fresh)
     = None.
Proof.
  split; [vm_compute; reflexivity|].
  apply (upload_photo_never_succeeds demo_clock demo_imread demo_bgr2hsv
           demo_float demo_secure_filename "0000" demo_request fresh).
  exists "wall.png"%string, "18.5204"%string, "73.8567"%string,
         lat_18_5204, lng_73_8567.
  repeat split; reflexivity.
Defined.
